(** * Animaflow: a shallow embedding of the raster engine and its proofs

    The development follows the TypeScript sources:
    - [src/engine/StorageManager.ts]: the IndexedDB-backed layer and frame
      store, as a state/error monad over the object stores;
    - [src/App.tsx]: frame CRUD and undo/redo, as operations of the same
      monad over the React state plus the store;
    - [src/engine/BrushEngine.ts]: flood fill over the flat RGBA byte array
      and the spline stroke, the latter over a small model of JS numbers;
    - [src/engine/AnimationLoop.ts]: the playback tick. *)

From Stdlib Require Import ZArith QArith Qpower Qround Lia Lqa Sorting.Sorted Sorting.Permutation.
From Corelib Require Import SpecFloat.
From stdpp Require Import base list gmap strings.

Open Scope Z_scope.

(* ------------------------------------------------------------------ *)
(** ** A state/error monad for async code that may throw

    An [async] function that throws yields a rejected promise; state
    changes made before the throw are kept. *)

Inductive result (A : Type) : Type :=
| Ok (a : A)
| Err (msg : string).
Arguments Ok {A} a.
Arguments Err {A} msg.

Definition M (S A : Type) : Type := S -> result A * S.

Definition ret {S A : Type} (x : A) : M S A := fun s => (Ok x, s).

Definition bindM {S A B : Type} (m : M S A) (k : A -> M S B) : M S B :=
  fun s =>
    match m s with
    | (Ok x, s') => k x s'
    | (Err e, s') => (Err e, s')
    end.

Definition throw {S A : Type} (msg : string) : M S A := fun s => (Err msg, s).
Definition getS {S : Type} : M S S := fun s => (Ok s, s).
Definition modifyS {S : Type} (f : S -> S) : M S unit := fun s => (Ok tt, f s).

(** The final state of a run, whether it resolved or rejected. *)
Definition exec {S A : Type} (m : M S A) (s : S) : S := snd (m s).

Notation "'let*' x ':=' m 'in' k" := (bindM m (fun x => k))
  (at level 200, x name, m at level 100, k at level 200).

(* ------------------------------------------------------------------ *)
(** ** types.ts *)

Inductive LayerType := Background | Lineart | Color.

Record FrameLayers := mkFrameLayers {
  background : string;
  lineart : string;
  color : string
}.

(** [frame.layers[type]] *)
Definition layer_of (l : FrameLayers) (t : LayerType) : string :=
  match t with
  | Background => background l
  | Lineart => lineart l
  | Color => color l
  end.

(** [interface Frame { id; index; layers }]; the field [id] is [frame_id]
    here, to keep Rocq's [id] function visible. *)
Record Frame := mkFrame {
  frame_id : string;
  index : Z;
  layers : FrameLayers
}.

(** A stored [Blob]: its bytes. *)
Definition blob := list Z.

(* ------------------------------------------------------------------ *)
(** ** StorageManager.ts *)

(** The persisted object stores and whether [this.db] is set.
    [layers]: out-of-line keys, key = layer id.
    [frames]: keyPath ['id']; IndexedDB keeps records in key order, so the
    store is an association list sorted by [String.compare]. *)
Record Store := mkStore {
  db : bool;
  layers_os : gmap string blob;
  frames_os : list (string * Frame)
}.

Definition not_initialized : string := "DB not initialized".

(** [store.put(frame)] on the keyPath store: insert or replace in key order. *)
Fixpoint put_sorted (k : string) (v : Frame) (l : list (string * Frame))
  : list (string * Frame) :=
  match l with
  | [] => [(k, v)]
  | (k', v') :: l' =>
      match String.compare k k' with
      | Lt => (k, v) :: l
      | Eq => (k, v) :: l'
      | Gt => (k', v') :: put_sorted k v l'
      end
  end.

Definition saveLayer (lid : string) (b : blob) : M Store unit :=
  fun s =>
    if db s then
      (Ok tt, mkStore (db s) (<[lid := b]> (layers_os s)) (frames_os s))
    else (Err not_initialized, s).

(** [request.result || null]: a [Blob] is always truthy. *)
Definition getLayer (lid : string) : M Store (option blob) :=
  fun s =>
    if db s then (Ok (layers_os s !! lid), s)
    else (Err not_initialized, s).

Definition deleteLayer (lid : string) : M Store unit :=
  fun s =>
    if db s then
      if String.eqb lid "" then (Ok tt, s)
      else (Ok tt, mkStore (db s) (delete lid (layers_os s)) (frames_os s))
    else (Err not_initialized, s).

Definition copyLayer (sourceId destId : string) : M Store unit :=
  let* b := getLayer sourceId in
  match b with
  | Some b => saveLayer destId b
  | None => ret tt
  end.

Definition saveFrame (f : Frame) : M Store unit :=
  fun s =>
    if db s then
      (Ok tt, mkStore (db s) (layers_os s) (put_sorted (frame_id f) f (frames_os s)))
    else (Err not_initialized, s).

Definition getAllFrames : M Store (list Frame) :=
  fun s =>
    if db s then (Ok (map snd (frames_os s)), s)
    else (Err not_initialized, s).

(** How the [indexedDB.open] request ends: [onsuccess], or [onerror] with
    [request.error]. *)
Inductive OpenOutcome := OpenSuccess | OpenError (e : string).

(** [init()] of the store. On success [this.db] is set and the object
    stores keep what they held ([onupgradeneeded] only creates missing,
    empty ones); on error the promise rejects with [request.error] and
    [this.db] is not touched. *)
Definition initStore (o : OpenOutcome) : M Store unit :=
  fun s =>
    match o with
    | OpenSuccess => (Ok tt, mkStore true (layers_os s) (frames_os s))
    | OpenError e => (Err e, s)
    end.

(* ------------------------------------------------------------------ *)
(** ** App.tsx: React state and the store *)

(** The React state the claims touch, and the store behind
    [storageManager.current]. Stacks keep their top at the end of the list,
    as the JS arrays do. *)
Record App := mkApp {
  frames : list Frame;
  currentFrameIndex : Z;
  activeLayer : LayerType;
  undoStack : list (option blob);
  redoStack : list (option blob);
  store : Store
}.

Definition setFrames (fs : list Frame) : M App unit :=
  modifyS (fun a => mkApp fs (currentFrameIndex a) (activeLayer a)
                          (undoStack a) (redoStack a) (store a)).
Definition setCurrentFrameIndex (i : Z) : M App unit :=
  modifyS (fun a => mkApp (frames a) i (activeLayer a)
                          (undoStack a) (redoStack a) (store a)).
Definition setUndoStack (f : list (option blob) -> list (option blob)) : M App unit :=
  modifyS (fun a => mkApp (frames a) (currentFrameIndex a) (activeLayer a)
                          (f (undoStack a)) (redoStack a) (store a)).
Definition setRedoStack (f : list (option blob) -> list (option blob)) : M App unit :=
  modifyS (fun a => mkApp (frames a) (currentFrameIndex a) (activeLayer a)
                          (undoStack a) (f (redoStack a)) (store a)).

(** A call on [storageManager.current]. *)
Definition liftS {A : Type} (m : M Store A) : M App A :=
  fun a =>
    let (r, s') := m (store a) in
    (r, mkApp (frames a) (currentFrameIndex a) (activeLayer a)
              (undoStack a) (redoStack a) s').

(** [frames[index]]: [undefined] for a negative or too large index. *)
Definition frame_at (fs : list Frame) (i : Z) : option Frame :=
  if i <? 0 then None else fs !! Z.to_nat i.

(** [createNewFrame(index)], the four [crypto.randomUUID()] results given
    as [ids] (frame id, then background, lineart, color). *)
Definition createNewFrame (ids : string * string * string * string) (i : Z) : Frame :=
  match ids with
  | (fid, bg, la, co) => mkFrame fid i (mkFrameLayers bg la co)
  end.

(** [.map((f, i) => ({ ...f, index: i }))] *)
Definition reindex (fs : list Frame) : list Frame :=
  imap (fun i f => mkFrame (frame_id f) (Z.of_nat i) (layers f)) fs.

(** [arr.splice(pos, 0, x)] for [0 <= pos <= arr.length]. *)
Definition splice_insert {A : Type} (pos : nat) (x : A) (l : list A) : list A :=
  take pos l ++ x :: drop pos l.

(** [arr.filter((_, i) => i !== index)] *)
Definition filter_index {A : Type} (l : list A) (i : Z) : list A :=
  map snd (filter (fun p => Z.of_nat (fst p) <> i) (zip (seq 0 (length l)) l)).

(** [loadFrameToCanvas(index)]: the frame cache is never filled, so every
    layer is read from the store (in the order Background, Color, Lineart);
    the canvas drawing itself leaves no trace in the model. The onion skin
    render it starts is not awaited and only reads the store. *)
Definition loadFrameToCanvas (i : Z) : M App unit :=
  let* a := getS in
  match frame_at (frames a) i with
  | None => ret tt
  | Some f =>
      let* _ := liftS (getLayer (layer_of (layers f) Background)) in
      let* _ := liftS (getLayer (layer_of (layers f) Color)) in
      let* _ := liftS (getLayer (layer_of (layers f) Lineart)) in
      ret tt
  end.

(** The effect of App.tsx:218-222,
    [useEffect(() => { loadFrameToCanvas(currentFrameIndex); setUndoStack([]);
    setRedoStack([]); }, [currentFrameIndex, loadFrameToCanvas])].
    [loadFrameToCanvas] is a [useCallback] over [frames], so the effect runs
    after the render that follows every [setFrames] and every change of
    [currentFrameIndex]. [loadFrameToCanvas] is started and not awaited: it
    runs, and a rejection it raises is not observed; both history stacks are
    then emptied. *)
Definition frameEffect : M App unit :=
  fun a =>
    let a1 := exec (loadFrameToCanvas (currentFrameIndex a)) a in
    (Ok tt, exec (let* _ := setUndoStack (fun _ => []) in
                  setRedoStack (fun _ => [])) a1).

(** [setFrames(fs)], with the render and the effect it triggers. *)
Definition setFrames_effect (fs : list Frame) : M App unit :=
  let* _ := setFrames fs in
  frameEffect.

(** [setCurrentFrameIndex(i)], with the render and the effect it triggers;
    React skips both when the value does not change. *)
Definition setCurrentFrameIndex_effect (i : Z) : M App unit :=
  let* a := getS in
  let* _ := setCurrentFrameIndex i in
  if currentFrameIndex a =? i then ret tt else frameEffect.

Definition addFrame (ids : string * string * string * string) : M App unit :=
  let* a := getS in
  let newFrame := createNewFrame ids (Z.of_nat (length (frames a))) in
  let newFrames := frames a ++ [newFrame] in
  let* _ := setFrames_effect newFrames in
  let* _ := liftS (saveFrame newFrame) in
  setCurrentFrameIndex_effect (Z.of_nat (length newFrames) - 1).

Definition duplicateFrame (i : Z) (ids : string * string * string * string) : M App unit :=
  let* a := getS in
  match frame_at (frames a) i with
  | None => ret tt
  | Some sourceFrame =>
      let newFrame := createNewFrame ids (i + 1) in
      let* _ := liftS (copyLayer (layer_of (layers sourceFrame) Background)
                                 (layer_of (layers newFrame) Background)) in
      let* _ := liftS (copyLayer (layer_of (layers sourceFrame) Lineart)
                                 (layer_of (layers newFrame) Lineart)) in
      let* _ := liftS (copyLayer (layer_of (layers sourceFrame) Color)
                                 (layer_of (layers newFrame) Color)) in
      let newFrames := splice_insert (Z.to_nat (i + 1)) newFrame (frames a) in
      let* _ := setFrames_effect (reindex newFrames) in
      let* _ := liftS (saveFrame newFrame) in
      setCurrentFrameIndex_effect (i + 1)
  end.

Definition deleteFrame (i : Z) : M App unit :=
  let* a := getS in
  if (length (frames a) <=? 1)%nat then ret tt else
  match frame_at (frames a) i with
  | None => ret tt
  | Some frameToDelete =>
      let newFrames := reindex (filter_index (frames a) i) in
      let* _ := setFrames_effect newFrames in
      let* _ := liftS (deleteLayer (layer_of (layers frameToDelete) Background)) in
      let* _ := liftS (deleteLayer (layer_of (layers frameToDelete) Lineart)) in
      let* _ := liftS (deleteLayer (layer_of (layers frameToDelete) Color)) in
      if currentFrameIndex a >=? Z.of_nat (length newFrames)
      then setCurrentFrameIndex_effect (Z.max 0 (Z.of_nat (length newFrames) - 1))
      else ret tt
  end.

(** [prev.slice(-19)] *)
Definition slice_last19 {A : Type} (l : list A) : list A :=
  drop (length l - 19) l.

(** The [.then] callback of pointer-down: push the pre-edit blob (keeping
    the last 20) and clear the redo stack. A rejected [getLayer] is not
    awaited, so it changes nothing. *)
Definition pushUndoSnapshot (lid : string) : M App unit :=
  fun a0 =>
    match liftS (getLayer lid) a0 with
    | (Ok currentBlob, a1) =>
        (let* _ := setUndoStack (fun prev => slice_last19 prev ++ [currentBlob]) in
         setRedoStack (fun _ => [])) a1
    | (Err _, a1) => (Ok tt, a1)
    end.

(** The [toBlob] callback of pointer-up, with the encoded canvas [nb]. *)
Definition saveStroke (nb : option blob) : M App unit :=
  match nb with
  | Some b =>
      let* a := getS in
      match frame_at (frames a) (currentFrameIndex a) with
      | Some f => liftS (saveLayer (layer_of (layers f) (activeLayer a)) b)
      | None => ret tt
      end
  | None => ret tt
  end.

(** One mutation of the active layer, from pointer-down to pointer-up,
    with its asynchronous steps run in order: the snapshot promise resolves
    before the stroke is saved. *)
Definition mutation (nb : option blob) : M App unit :=
  let* a := getS in
  let* _ :=
    match frame_at (frames a) (currentFrameIndex a) with
    | Some f => pushUndoSnapshot (layer_of (layers f) (activeLayer a))
    | None => ret tt
    end in
  saveStroke nb.

(** Strokes are separate UI events: each runs to completion, and a
    rejected one does not stop the next. *)
Fixpoint mutations (bs : list (option blob)) (a : App) : App :=
  match bs with
  | [] => a
  | b :: bs' => mutations bs' (exec (mutation b) a)
  end.

Definition undo : M App unit :=
  let* a := getS in
  if decide (undoStack a = []) then ret tt else
  match frame_at (frames a) (currentFrameIndex a) with
  | None => ret tt
  | Some f =>
      let lid := layer_of (layers f) (activeLayer a) in
      let prevBlob := List.last (undoStack a) None in
      let* currentBlob := liftS (getLayer lid) in
      let* _ := setRedoStack (fun prev => prev ++ [currentBlob]) in
      let* _ := setUndoStack (fun prev => removelast prev) in
      let* _ := match prevBlob with
                | Some b => liftS (saveLayer lid b)
                | None => liftS (deleteLayer lid)
                end in
      loadFrameToCanvas (currentFrameIndex a)
  end.

Definition redo : M App unit :=
  let* a := getS in
  if decide (redoStack a = []) then ret tt else
  match frame_at (frames a) (currentFrameIndex a) with
  | None => ret tt
  | Some f =>
      let lid := layer_of (layers f) (activeLayer a) in
      let nextBlob := List.last (redoStack a) None in
      let* currentBlob := liftS (getLayer lid) in
      let* _ := setUndoStack (fun prev => prev ++ [currentBlob]) in
      let* _ := setRedoStack (fun prev => removelast prev) in
      let* _ := match nextBlob with
                | Some b => liftS (saveLayer lid b)
                | None => liftS (deleteLayer lid)
                end in
      loadFrameToCanvas (currentFrameIndex a)
  end.

(** [n] clicks on a button, each run to completion. *)
Fixpoint clicks (n : nat) (m : M App unit) (a : App) : App :=
  match n with
  | O => a
  | S n' => clicks n' m (exec m a)
  end.

(** The blob persisted for the active (frame, layer) pair. *)
Definition active_blob (a : App) : option blob :=
  match frame_at (frames a) (currentFrameIndex a) with
  | Some f => layers_os (store a) !! layer_of (layers f) (activeLayer a)
  | None => None
  end.

(** [storedFrames.sort((a, b) => a.index - b.index)]: [Array.prototype.sort]
    is stable, so elements of equal index keep their order. *)
Fixpoint insert_by_index (f : Frame) (l : list Frame) : list Frame :=
  match l with
  | [] => [f]
  | g :: l' => if index f <=? index g then f :: l else g :: insert_by_index f l'
  end.

Fixpoint sort_by_index (l : list Frame) : list Frame :=
  match l with
  | [] => []
  | f :: l' => insert_by_index f (sort_by_index l')
  end.

(** The [init] effect of [App], with the outcome [o] of the open request:
    open the store, then load the frames, or create and save a first frame
    when there are none. Its rejection is not caught. *)
Definition initApp (o : OpenOutcome) (ids : string * string * string * string) : M App unit :=
  let* _ := liftS (initStore o) in
  let* storedFrames := liftS getAllFrames in
  match storedFrames with
  | [] =>
      let firstFrame := createNewFrame ids 0 in
      let* _ := setFrames_effect [firstFrame] in
      liftS (saveFrame firstFrame)
  | _ => setFrames_effect (sort_by_index storedFrames)
  end.

(* ------------------------------------------------------------------ *)
(** ** BrushEngine.ts: flood fill *)

(** A [Uint8ClampedArray] read [data[i]]: [undefined] outside the array. *)
Definition read (data : list Z) (i : Z) : option Z :=
  if i <? 0 then None else data !! Z.to_nat i.

(** A typed-array write [data[i] = v]: ignored outside the array. *)
Definition write (data : list Z) (i v : Z) : list Z :=
  if i <? 0 then data else <[Z.to_nat i := v]> data.

(** [getPixel(x, y)] over [imageData.data] of a canvas [width] wide. *)
Definition getPixel (data : list Z) (width x y : Z) : list (option Z) :=
  let i := (y * width + x) * 4 in
  [read data i; read data (i + 1); read data (i + 2); read data (i + 3)].

(** [colorsMatch(c1, c2)]: [===] on the four channels. *)
Definition colorsMatch (c1 c2 : list (option Z)) : bool :=
  bool_decide (c1 !! 0%nat = c2 !! 0%nat) && bool_decide (c1 !! 1%nat = c2 !! 1%nat) &&
  bool_decide (c1 !! 2%nat = c2 !! 2%nat) && bool_decide (c1 !! 3%nat = c2 !! 3%nat).

(** One character of [[a-f\d]] under the [i] flag, as [parseInt(_, 16)]
    reads it. *)
Definition hex_digit (c : Ascii.ascii) : option Z :=
  let n := Z.of_nat (Ascii.nat_of_ascii c) in
  if (48 <=? n) && (n <=? 57) then Some (n - 48)
  else if (97 <=? n) && (n <=? 102) then Some (n - 87)
  else if (65 <=? n) && (n <=? 70) then Some (n - 55)
  else None.

Definition hex_byte (c1 c2 : Ascii.ascii) : option Z :=
  match hex_digit c1, hex_digit c2 with
  | Some a, Some b => Some (16 * a + b)
  | _, _ => None
  end.

(** [hexToRgb(hex)]: [/^#?([a-f\d]{2})([a-f\d]{2})([a-f\d]{2})$/i]. A
    leading ['#'] cannot be a hex digit, so it is the optional one. *)
Definition hexToRgb (hex : string) : option (Z * Z * Z) :=
  (* the character "#" is 0x23 *)
  let body := match hex with
              | String.String (Ascii.Ascii true true false false false true false false) rest => rest
              | _ => hex
              end in
  match String.list_ascii_of_string body with
  | [c1; c2; c3; c4; c5; c6] =>
      match hex_byte c1 c2, hex_byte c3 c4, hex_byte c5 c6 with
      | Some r, Some g, Some b => Some (r, g, b)
      | _, _, _ => None
      end
  | _ => None
  end.

(** The fully opaque fill color [[fillRgb.r, fillRgb.g, fillRgb.b, 255]]. *)
Definition opaque (r g b : Z) : list (option Z) := [Some r; Some g; Some b; Some 255].

(** The [while (stack.length > 0)] loop. The stack keeps its top at the
    head: [stack.push(A, B, C, D)] leaves [D] on top. [painted] records,
    in order, the pixels the loop overwrites (ghost state of the model).
    [fuel] bounds the iterations; running out of it is [None]. *)
Fixpoint fill_loop (fuel : nat) (width height : Z) (targetColor : list (option Z))
    (r g b : Z) (stack : list (Z * Z)) (data : list Z) (painted : list (Z * Z))
    : option (list Z * list (Z * Z)) :=
  match fuel with
  | O => None
  | S fuel' =>
      match stack with
      | [] => Some (data, painted)
      | (x, y) :: stack' =>
          let i := (y * width + x) * 4 in
          if (x <? 0) || (x >=? width) || (y <? 0) || (y >=? height) then
            fill_loop fuel' width height targetColor r g b stack' data painted
          else if negb (colorsMatch (getPixel data width x y) targetColor) then
            fill_loop fuel' width height targetColor r g b stack' data painted
          else
            let data' := write (write (write (write data i r) (i + 1) g) (i + 2) b) (i + 3) 255 in
            fill_loop fuel' width height targetColor r g b
              ((x, y - 1) :: (x, y + 1) :: (x - 1, y) :: (x + 1, y) :: stack')
              data' (painted ++ [(x, y)])
      end
  end.

(** Each iteration either drops a stack entry or paints one of the
    [width * height] pixels while adding three entries. *)
Definition fill_fuel (width height : Z) : nat := (Z.to_nat (4 * width * height) + 2)%nat.

(** [floodFill(startX, startY, fillColor)] on a canvas [width] x [height]
    whose [getImageData] is [data]: the final [imageData.data] (written
    back by [putImageData]) and the pixels painted. The early returns leave
    the canvas untouched. *)
Definition floodFillRun (width height : Z) (data : list Z) (startX startY : Z)
    (fillColor : string) : option (list Z * list (Z * Z)) :=
  let targetColor := getPixel data width startX startY in
  match hexToRgb fillColor with
  | None => Some (data, [])
  | Some (r, g, b) =>
      if colorsMatch targetColor (opaque r g b) then Some (data, [])
      else fill_loop (fill_fuel width height) width height targetColor r g b
             [(startX, startY)] data []
  end.

Definition floodFill (width height : Z) (data : list Z) (startX startY : Z)
    (fillColor : string) : option (list Z) :=
  option_map fst (floodFillRun width height data startX startY fillColor).

(* ------------------------------------------------------------------ *)
(** ** AnimationLoop.ts

    JS numbers are IEEE-754 binary64 values: [spec_float], Rocq's reference
    semantics of binary floating point, at precision 53 and maximal exponent
    1024, with its correctly rounded operations (to nearest, ties to even). *)

Definition double := spec_float.
Definition dprec : Z := 53.
Definition demax : Z := 1024.

(** An integer as a JS number. *)
Definition d_of_Z (z : Z) : double := binary_normalize dprec demax z 0 false.

(** [a + b], [a - b], [a / b] and [a >= b] on numbers. *)
Definition d_add (a b : double) : double := SFadd dprec demax a b.
Definition d_sub (a b : double) : double := SFsub dprec demax a b.
Definition d_div (a b : double) : double := SFdiv dprec demax a b.
Definition d_ge (a b : double) : bool := SFleb b a.

(** The exact value of a finite number (0 for the others). *)
Definition dval (x : double) : Q :=
  match x with
  | S754_finite s m e => (inject_Z (cond_Zopp s (Zpos m)) * Qpower 2 e)%Q
  | _ => 0%Q
  end.

(** [Math.floor(x)]: the greatest integer not above [x] (exact, and [+0]
    for [0 < x < 1]); NaN, the infinities and the zeros are returned as
    they are. *)
Definition js_floor (x : double) : double :=
  match x with
  | S754_finite s m e =>
      if 0 <=? e then x
      else binary_normalize dprec demax (Z.div (cond_Zopp s (Zpos m)) (2 ^ (- e))) 0 s
  | _ => x
  end.

(** [n % d] (Number::remainder): NaN when an operand is NaN, [n] is
    infinite or [d] is a zero; [n] when [d] is infinite or [n] is a zero;
    otherwise the exact [n - d * q], with [q] the quotient truncated toward
    zero, and a zero result keeps the sign of [n]. Both operands are
    written over the smaller of their exponents, so [Z.rem] computes it. *)
Definition js_rem (n d : double) : double :=
  match n, d with
  | S754_nan, _ | _, S754_nan => S754_nan
  | S754_infinity _, _ => S754_nan
  | _, S754_zero _ => S754_nan
  | _, S754_infinity _ => n
  | S754_zero _, _ => n
  | S754_finite sn mn en, S754_finite _ md ed =>
      let e := Z.min en ed in
      binary_normalize dprec demax
        (Z.rem (cond_Zopp sn (Zpos mn * 2 ^ (en - e))) (Zpos md * 2 ^ (ed - e))) e sn
  end.

Record Loop := mkLoop {
  fps : double;
  isPlaying : bool;
  lastTime : double;
  frameInterval : double;
  totalFrames : double;
  currentFrame : double
}.

(** [new AnimationLoop(onFrame)]. *)
Definition newLoop : Loop :=
  mkLoop (d_of_Z 12) false (d_of_Z 0) (d_div (d_of_Z 1000) (d_of_Z 12)) (d_of_Z 0) (d_of_Z 0).

Definition setFPS (f : double) (s : Loop) : Loop :=
  mkLoop f (isPlaying s) (lastTime s) (d_div (d_of_Z 1000) f) (totalFrames s) (currentFrame s).

Definition setTotalFrames (total : double) (s : Loop) : Loop :=
  mkLoop (fps s) (isPlaying s) (lastTime s) (frameInterval s) total (currentFrame s).

(** [loop(now)]: the new state and the numbers passed to [onFrame], in
    order. The [requestAnimationFrame] re-registration is not modelled. *)
Definition loop (now : double) (s : Loop) : Loop * list double :=
  if negb (isPlaying s) then (s, []) else
  let elapsed := d_sub now (lastTime s) in
  if d_ge elapsed (frameInterval s) then
    let framesToAdvance := js_floor (d_div elapsed (frameInterval s)) in
    let cf := js_rem (d_add (currentFrame s) framesToAdvance) (totalFrames s) in
    let lt := d_sub now (js_rem elapsed (frameInterval s)) in
    (mkLoop (fps s) (isPlaying s) lt (frameInterval s) (totalFrames s) cf, [cf])
  else (s, []).

(** [start(startFrame)] at time [now] ([performance.now()]); the first
    [requestAnimationFrame] is not modelled. *)
Definition start (startFrame : double) (now : double) (s : Loop) : Loop :=
  mkLoop (fps s) true now (frameInterval s) (totalFrames s) startFrame.

Definition stop (s : Loop) : Loop :=
  mkLoop (fps s) false (lastTime s) (frameInterval s) (totalFrames s) (currentFrame s).

(** The animation frames that call [loop], at the times [nows]: the final
    state and every number passed to [onFrame], in order. *)
Fixpoint ticks (nows : list double) (s : Loop) : Loop * list double :=
  match nows with
  | [] => (s, [])
  | now :: nows' =>
      let (s1, out1) := loop now s in
      let (s2, out2) := ticks nows' s1 in
      (s2, out1 ++ out2)
  end.

(** *** Facts about doubles, used for the playback bounds *)

(** Shape of a correctly rounded binary64 result of sign [sx] and
    magnitude below [2^bnd]: zero or a finite value in range. *)
Definition rounded_ok (sx : bool) (bnd : Z) (x : double) : Prop :=
  match x with
  | S754_zero s => s = sx
  | S754_finite s m e => s = sx /\ Zdigits2 (Zpos m) <= 53 /\ -1074 <= e <= 971 /\
                          Zdigits2 (Zpos m) + e <= bnd
  | _ => False
  end.

(** The sign SpecFloat gives to the rounded value of the integer [z]
    ([sz] for zero). *)
Definition sign_of (z : Z) (sz : bool) : bool :=
  match z with Z0 => sz | Zpos _ => false | Zneg _ => true end.

(** A well-formed finite binary64 value (or a zero). *)
Definition dwf (x : double) : Prop :=
  match x with
  | S754_zero _ => True
  | S754_finite _ m e => Zdigits2 (Zpos m) <= 53 /\ -1074 <= e <= 971
  | _ => False
  end.

(** A finite value whose magnitude is below [2^k]. *)
Definition d_below (k : Z) (x : double) : Prop :=
  match x with
  | S754_zero _ => True
  | S754_finite _ m e => Zdigits2 (Zpos m) + e <= k
  | _ => False
  end.

(** A nonnegative finite value ([+0], [-0] or a positive one). *)
Definition d_nonneg (x : double) : Prop :=
  match x with
  | S754_zero _ | S754_finite false _ _ => True
  | _ => False
  end.

(** Invariant of the loop state across ticks: interval and frame count fixed,
    [lastTime] and [currentFrame] finite and bounded, the frame nonnegative. *)
Definition loop_inv (itv tot : double) (s : Loop) : Prop :=
  frameInterval s = itv /\ totalFrames s = tot /\
  dwf (lastTime s) /\ d_below 902 (lastTime s) /\
  dwf (currentFrame s) /\ d_nonneg (currentFrame s) /\ d_below 900 (currentFrame s).

(** A valid finite double below [2^900] in magnitude. *)
Definition d_small (x : double) : Prop :=
  valid_binary dprec demax x = true /\ d_below 900 x.

(* ------------------------------------------------------------------ *)
(** ** JS numbers, for the spline

    Finite values are exact rationals (no rounding; [Qred] keeps them in
    lowest terms), with the IEEE special
    values [Infinity], [-Infinity] and [NaN]. Signed zero is not
    represented: a division by zero is a division by [+0], which is the
    only zero the knot differences below produce. *)

Inductive num := Fin (q : Q) | PInf | NInf | NaN.

Definition num_neg (a : num) : num :=
  match a with
  | Fin q => Fin (- q)%Q | PInf => NInf | NInf => PInf | NaN => NaN
  end.

Definition num_add (a b : num) : num :=
  match a, b with
  | NaN, _ | _, NaN => NaN
  | PInf, NInf | NInf, PInf => NaN
  | PInf, _ | _, PInf => PInf
  | NInf, _ | _, NInf => NInf
  | Fin p, Fin q => Fin (Qred (p + q))
  end.

Definition num_sub (a b : num) : num := num_add a (num_neg b).

(** The sign of a finite value: [Lt], [Eq] or [Gt] against 0. *)
Definition qsign (q : Q) : comparison := Qcompare q 0.

(** [Infinity] times a value of sign [c]. *)
Definition inf_times (c : comparison) : num :=
  match c with Gt => PInf | Lt => NInf | Eq => NaN end.

Definition num_mul (a b : num) : num :=
  match a, b with
  | NaN, _ | _, NaN => NaN
  | Fin p, Fin q => Fin (Qred (p * q))
  | PInf, Fin q | Fin q, PInf => inf_times (qsign q)
  | NInf, Fin q | Fin q, NInf => num_neg (inf_times (qsign q))
  | PInf, PInf | NInf, NInf => PInf
  | PInf, NInf | NInf, PInf => NInf
  end.

Definition num_div (a b : num) : num :=
  match a, b with
  | NaN, _ | _, NaN => NaN
  | Fin p, Fin q =>
      match qsign q with
      | Eq => inf_times (qsign p)
      | _ => Fin (Qred (p / q))
      end
  | Fin _, _ => Fin 0%Q
  | PInf, Fin q => inf_times (match qsign q with Eq => Gt | c => c end)
  | NInf, Fin q => num_neg (inf_times (match qsign q with Eq => Gt | c => c end))
  | _, _ => NaN
  end.

(** [Math.pow(x, 2)]. *)
Definition num_pow2 (a : num) : num := num_mul a a.

(** Square root of a non-negative rational: exact on squares of rationals
    and within [2^-32] otherwise (the double rounding is not modelled). *)
Definition Qsqrt_approx (q : Q) : Q :=
  Z.sqrt (Qnum q * Zpos (Qden q) * 2 ^ 64) # (Qden q * 2 ^ 32).

(** [Math.pow(x, 0.5)]. *)
Definition num_pow_half (a : num) : num :=
  match a with
  | NaN => NaN
  | PInf | NInf => PInf
  | Fin q => if Qlt_le_dec q 0%Q then NaN else Fin (Qsqrt_approx q)
  end.

Definition num_of_nat (n : nat) : num := Fin (inject_Z (Z.of_nat n)).

Declare Scope num_scope.
Delimit Scope num_scope with num.
Notation "a + b" := (num_add a b) : num_scope.
Notation "a - b" := (num_sub a b) : num_scope.
Notation "a * b" := (num_mul a b) : num_scope.
Notation "a / b" := (num_div a b) : num_scope.

(* ------------------------------------------------------------------ *)
(** ** A 2D canvas context, as far as the stroke code uses it *)

(** One [ctx.stroke()]: the current path and the drawing state it was
    stroked with. *)
Record StrokeOp := mkStrokeOp {
  so_path : list (list (num * num));
  so_width : num;
  so_cap : string;
  so_join : string;
  so_style : string;
  so_op : string
}.

(** The drawing state that [save]/[restore] push and pop. *)
Record DrawState := mkDrawState {
  ds_lineWidth : num;
  ds_lineCap : string;
  ds_lineJoin : string;
  ds_strokeStyle : string;
  ds_op : string
}.

(** [path] is the list of subpaths, [strokes] what has been stroked, in
    order. *)
Record Ctx := mkCtx {
  state : DrawState;
  saved : list DrawState;
  path : list (list (num * num));
  strokes : list StrokeOp
}.

Definition set_state (f : DrawState -> DrawState) (c : Ctx) : Ctx :=
  mkCtx (f (state c)) (saved c) (path c) (strokes c).

Definition ctx_save (c : Ctx) : Ctx :=
  mkCtx (state c) (state c :: saved c) (path c) (strokes c).

Definition ctx_restore (c : Ctx) : Ctx :=
  match saved c with
  | d :: ds => mkCtx d ds (path c) (strokes c)
  | [] => c
  end.

(** [ctx.lineWidth = v]: values that are not finite and positive are
    ignored. *)
Definition set_lineWidth (v : num) (c : Ctx) : Ctx :=
  match v with
  | Fin q =>
      if Qlt_le_dec 0%Q q then
        set_state (fun d => mkDrawState v (ds_lineCap d) (ds_lineJoin d)
                                        (ds_strokeStyle d) (ds_op d)) c
      else c
  | _ => c
  end.

Definition set_lineCap (v : string) (c : Ctx) : Ctx :=
  set_state (fun d => mkDrawState (ds_lineWidth d) v (ds_lineJoin d)
                                  (ds_strokeStyle d) (ds_op d)) c.
Definition set_lineJoin (v : string) (c : Ctx) : Ctx :=
  set_state (fun d => mkDrawState (ds_lineWidth d) (ds_lineCap d) v
                                  (ds_strokeStyle d) (ds_op d)) c.
Definition set_strokeStyle (v : string) (c : Ctx) : Ctx :=
  set_state (fun d => mkDrawState (ds_lineWidth d) (ds_lineCap d) (ds_lineJoin d)
                                  v (ds_op d)) c.
Definition set_composite (v : string) (c : Ctx) : Ctx :=
  set_state (fun d => mkDrawState (ds_lineWidth d) (ds_lineCap d) (ds_lineJoin d)
                                  (ds_strokeStyle d) v) c.

Definition beginPath (c : Ctx) : Ctx := mkCtx (state c) (saved c) [] (strokes c).

Definition moveTo (x y : num) (c : Ctx) : Ctx :=
  mkCtx (state c) (saved c) (path c ++ [[(x, y)]]) (strokes c).

(** [lineTo] extends the last subpath, or starts one when there is none. *)
Definition lineTo (x y : num) (c : Ctx) : Ctx :=
  match rev (path c) with
  | sp :: rest => mkCtx (state c) (saved c) (rev rest ++ [sp ++ [(x, y)]]) (strokes c)
  | [] => moveTo x y c
  end.

Definition stroke (c : Ctx) : Ctx :=
  let d := state c in
  mkCtx d (saved c) (path c)
    (strokes c ++ [mkStrokeOp (path c) (ds_lineWidth d) (ds_lineCap d)
                              (ds_lineJoin d) (ds_strokeStyle d) (ds_op d)]).

(* ------------------------------------------------------------------ *)
(** ** BrushEngine.ts: strokes *)

Record Point := mkPoint {
  px : num;
  py : num;
  pressure : num;
  tiltX : num;
  tiltY : num;
  timestamp : num
}.

Inductive ToolType := Brush | Eraser | Select | Fill.

Record BrushSettings := mkBrushSettings {
  tool : ToolType;
  size : num;
  bcolor : string;
  opacity : num;
  smoothing : num
}.

(** [private points] and [private ctx]. *)
Record Engine := mkEngine {
  points : list Point;
  ctx : Ctx
}.

Definition drawSimpleLine (pts : list Point) (settings : BrushSettings) (c : Ctx) : Ctx :=
  if (length pts <? 2)%nat then c else
  match pts !! (length pts - 2)%nat, pts !! (length pts - 1)%nat with
  | Some p1, Some p2 =>
      let c := beginPath c in
      let c := set_lineCap "round" c in
      let c := set_lineJoin "round" c in
      let c := set_strokeStyle (bcolor settings) c in
      let c := set_lineWidth (num_mul (size settings) (pressure p2)) c in
      let c := moveTo (px p1) (py p1) c in
      let c := lineTo (px p2) (py p2) c in
      stroke c
  | _, _ => c
  end.

Definition alpha : num := Fin (1 # 2).

(** The [getT] closure of [drawSpline]. *)
Definition getT (t : num) (pA pB : Point) : num :=
  let d := num_pow_half (num_add (num_pow2 (num_sub (px pB) (px pA)))
                                 (num_pow2 (num_sub (py pB) (py pA)))) in
  num_add (num_pow_half d) t.

Definition steps : nat := 10.

(** The curve point of iteration [i], and the pressure of that iteration:
    the loop body of [drawSpline] before its canvas calls. *)
Definition spline_point (p0 p1 p2 p3 : Point) (t0 t1 t2 t3 : num) (i : nat)
    : num * num * num :=
  (let fi := num_of_nat i / num_of_nat steps in
  let t := t1 + fi * (t2 - t1) in
  let a1x := (t1 - t) / (t1 - t0) * px p0 + (t - t0) / (t1 - t0) * px p1 in
  let a1y := (t1 - t) / (t1 - t0) * py p0 + (t - t0) / (t1 - t0) * py p1 in
  let a2x := (t2 - t) / (t2 - t1) * px p1 + (t - t1) / (t2 - t1) * px p2 in
  let a2y := (t2 - t) / (t2 - t1) * py p1 + (t - t1) / (t2 - t1) * py p2 in
  let a3x := (t3 - t) / (t3 - t2) * px p2 + (t - t2) / (t3 - t2) * px p3 in
  let a3y := (t3 - t) / (t3 - t2) * py p2 + (t - t2) / (t3 - t2) * py p3 in
  let b1x := (t2 - t) / (t2 - t0) * a1x + (t - t0) / (t2 - t0) * a2x in
  let b1y := (t2 - t) / (t2 - t0) * a1y + (t - t0) / (t2 - t0) * a2y in
  let b2x := (t3 - t) / (t3 - t1) * a2x + (t - t1) / (t3 - t1) * a3x in
  let b2y := (t3 - t) / (t3 - t1) * a2y + (t - t1) / (t3 - t1) * a3y in
  let cx := (t2 - t) / (t2 - t1) * b1x + (t - t1) / (t2 - t1) * b2x in
  let cy := (t2 - t) / (t2 - t1) * b1y + (t - t1) / (t2 - t1) * b2y in
  let pr := pressure p1 + fi * (pressure p2 - pressure p1) in
  (cx, cy, pr))%num.

(** [for (let i = 0; i <= steps; i++)], from iteration [i] on. *)
Fixpoint spline_iters (p0 p1 p2 p3 : Point) (t0 t1 t2 t3 : num) (settings : BrushSettings)
    (i : nat) (fuel : nat) (c : Ctx) : Ctx :=
  match fuel with
  | O => c
  | S fuel' =>
      let '(cx, cy, pr) := spline_point p0 p1 p2 p3 t0 t1 t2 t3 i in
      let c := set_lineWidth (num_mul (size settings) pr) c in
      let c := if (i =? 0)%nat then moveTo cx cy c else lineTo cx cy c in
      spline_iters p0 p1 p2 p3 t0 t1 t2 t3 settings (S i) fuel' c
  end.

Definition drawSpline (pts : list Point) (settings : BrushSettings) (c : Ctx) : Ctx :=
  let len := length pts in
  match pts !! (len - 4)%nat, pts !! (len - 3)%nat, pts !! (len - 2)%nat,
        pts !! (len - 1)%nat with
  | Some p0, Some p1, Some p2, Some p3 =>
      let t0 := Fin 0%Q in
      let t1 := getT t0 p0 p1 in
      let t2 := getT t1 p1 p2 in
      let t3 := getT t2 p2 p3 in
      let c := beginPath c in
      let c := set_lineCap "round" c in
      let c := set_lineJoin "round" c in
      let c := set_strokeStyle (bcolor settings) c in
      let c := spline_iters p0 p1 p2 p3 t0 t1 t2 t3 settings 0 (S steps) c in
      stroke c
  | _, _, _, _ => c
  end.

Definition addPoint (point : Point) (settings : BrushSettings) (e : Engine) : Engine :=
  match tool settings with
  | Fill | Select => e
  | _ =>
      let pts := points e ++ [point] in
      let c := ctx_save (ctx e) in
      let c := match tool settings with
               | Eraser => set_composite "destination-out" c
               | _ => c
               end in
      let c := if (length pts <? 4)%nat then drawSimpleLine pts settings c
               else drawSpline pts settings c in
      mkEngine pts (ctx_restore c)
  end.

Definition endStroke (e : Engine) : Engine := mkEngine [] (ctx e).

(* ------------------------------------------------------------------ *)
(** ** Predicates used by the specification *)

(** Frame indices are [0 .. count-1] in list order. *)
Definition indices_contiguous (fs : list Frame) : Prop :=
  index <$> fs = Z.of_nat <$> seq 0 (length fs).

(** The frame operations of the timeline. *)
Inductive FrameOp :=
| OpAdd (ids : string * string * string * string)
| OpDuplicate (i : Z) (ids : string * string * string * string)
| OpDelete (i : Z).

Definition runFrameOp (o : FrameOp) : M App unit :=
  match o with
  | OpAdd ids => addFrame ids
  | OpDuplicate i ids => duplicateFrame i ids
  | OpDelete i => deleteFrame i
  end.

(** Operations run one after the other; a rejected one leaves the state it
    reached and the next one still runs. *)
Fixpoint runFrameOps (os : list FrameOp) (a : App) : App :=
  match os with
  | [] => a
  | o :: os' => runFrameOps os' (exec (runFrameOp o) a)
  end.

(** The [frames] object store in strictly increasing key order, as
    IndexedDB keeps it. *)
Fixpoint keys_sorted (l : list (string * Frame)) : Prop :=
  match l with
  | [] => True
  | (k, _) :: l' => Forall (fun p => String.compare k p.1 = Lt) l' /\ keys_sorted l'
  end.

(** Whether the [frames] object store holds a record under [fid]. *)
Definition frame_record_stored (s : Store) (fid : string) : bool :=
  existsb (fun p => String.eqb (fst p) fid) (frames_os s).

(** What [undo]/[redo] write back for a snapshot [ob] of layer [lid]. *)
Definition restore_layer (lid : string) (ob : option blob) (lo : gmap string blob)
  : gmap string blob :=
  match ob with
  | Some b => <[lid := b]> lo
  | None => if String.eqb lid "" then lo else delete lid lo
  end.

(** The last [k] entries of a stack. *)
Definition lastn {A : Type} (k : nat) (l : list A) : list A := drop (length l - k) l.

(** Once a layer holds a blob it is never removed by a stroke: along the
    snapshots, absent entries come before present ones. *)
Fixpoint absent_then_present (l : list (option blob)) : Prop :=
  match l with
  | [] => True
  | None :: l' => absent_then_present l'
  | Some _ :: l' => Forall (fun o => is_Some o) l'
  end.

(** [k] undo steps are available on the active pair: its frame exists, the
    store is open, the undo stack has [k] entries, and the last [k]
    snapshots followed by the current blob go from absent to present. *)
Definition undo_ready (k : nat) (a : App) : Prop :=
  exists f,
    frame_at (frames a) (currentFrameIndex a) = Some f /\
    db (store a) = true /\
    (k <= length (undoStack a))%nat /\
    absent_then_present
      (lastn k (undoStack a) ++ [layers_os (store a) !! layer_of (layers f) (activeLayer a)]).

(** [c'] differs from [c] at most in the line width and the path: the
    saved states, the strokes and the other drawing settings are the same. *)
Definition keeps (c c' : Ctx) : Prop :=
  saved c' = saved c /\ strokes c' = strokes c /\
  ds_lineCap (state c') = ds_lineCap (state c) /\
  ds_lineJoin (state c') = ds_lineJoin (state c) /\
  ds_strokeStyle (state c') = ds_strokeStyle (state c) /\
  ds_op (state c') = ds_op (state c).

(** Equal but for the undo stack, which [redo] only appends to. *)
Definition same_but_undo (a b : App) : Prop :=
  frames a = frames b /\ currentFrameIndex a = currentFrameIndex b /\
  activeLayer a = activeLayer b /\ redoStack a = redoStack b /\ store a = store b.

(** Four-neighbourhood of a pixel, in the order the fill pushes them. *)
Definition adj (p q : Z * Z) : Prop :=
  q = (p.1 + 1, p.2) \/ q = (p.1 - 1, p.2) \/ q = (p.1, p.2 + 1) \/ q = (p.1, p.2 - 1).

Definition inb (width height : Z) (p : Z * Z) : Prop :=
  0 <= p.1 < width /\ 0 <= p.2 < height.

(** The pixels reachable from [s] through four-neighbours in [A]. *)
Inductive reach (A : Z * Z -> Prop) (s : Z * Z) : Z * Z -> Prop :=
| reach_refl : A s -> reach A s s
| reach_step p q : reach A s p -> adj p q -> A q -> reach A s q.

(** The 4-connected region of the seed: in-canvas pixels of the seed's
    color, reachable from the seed. *)
Definition in_region (width height : Z) (data : list Z) (sx sy : Z) (p : Z * Z) : Prop :=
  reach (fun q => inb width height q /\
                  getPixel data width q.1 q.2 = getPixel data width sx sy)
        (sx, sy) p.

(** The byte offset of pixel [p] in a canvas [w] wide. *)
Definition pix_index (w : Z) (p : Z * Z) : Z := (p.2 * w + p.1) * 4.

(** The four writes of one iteration of the fill loop at pixel [p]. *)
Definition paint (w r g b : Z) (data : list Z) (p : Z * Z) : list Z :=
  let i := pix_index w p in
  write (write (write (write data i r) (i + 1) g) (i + 2) b) (i + 3) 255.

(** All pixels of a [w] x [h] canvas, row by row. *)
Definition pixels (w h : Z) : list (Z * Z) :=
  (fun k => (Z.of_nat k mod w, Z.of_nat k / w)) <$> seq 0 (Z.to_nat (w * h)).

(** Seed-colored in-canvas pixels not yet painted. *)
Definition avail (w h : Z) (data0 : list Z) (sx sy : Z) (log : list (Z * Z))
    (q : Z * Z) : Prop :=
  (inb w h q /\ getPixel data0 w q.1 q.2 = getPixel data0 w sx sy) /\ q ∉ log.

(** Invariant of the fill loop started on [data0] at [(sx, sy)], with
    [stack], current [data] and the log [log] of painted pixels. *)
Definition fill_inv (w h : Z) (data0 : list Z) (sx sy r g b : Z)
    (stack : list (Z * Z)) (data : list Z) (log : list (Z * Z)) : Prop :=
  length data = length data0 /\
  (forall p, inb w h p -> p ∈ log -> getPixel data w p.1 p.2 = opaque r g b) /\
  (forall p, inb w h p -> p ∉ log -> getPixel data w p.1 p.2 = getPixel data0 w p.1 p.2) /\
  NoDup log /\
  (forall p, p ∈ log -> in_region w h data0 sx sy p) /\
  (forall q, q ∈ stack -> q = (sx, sy) \/ exists p, p ∈ log /\ adj p q) /\
  (forall p, in_region w h data0 sx sy p -> p ∉ log ->
     exists q, q ∈ stack /\ reach (avail w h data0 sx sy log) q p).

(** ** Concrete inputs used by the witnesses and counterexamples *)

Definition ex_frame0 : Frame := mkFrame "f0" 0 (mkFrameLayers "b0" "l0" "c0").
Definition ex_frame1 : Frame := mkFrame "f1" 1 (mkFrameLayers "b1" "l1" "c1").
Definition ex_app : App :=
  mkApp [ex_frame0; ex_frame1] 0 Lineart [] []
        (mkStore true (<["l0" := [7]]> (<["l1" := [8]]> ∅))
                 [("f0", ex_frame0); ("f1", ex_frame1)]).

Definition ex_app_single : App :=
  mkApp [ex_frame0] 0 Lineart [] [] (mkStore true ∅ [("f0", ex_frame0)]).

(** [ex_app] with one entry on each history stack. *)
Definition ex_app_hist : App :=
  mkApp (frames ex_app) 0 Lineart [Some [6]] [None] (store ex_app).

(** An [AnimationLoop] set to 30 fps (an option of the FPS select) with 10
    frames, started on frame 0 at 1000 ms. *)
Definition ex_loop30 : Loop :=
  start (d_of_Z 0) (d_of_Z 1000) (setTotalFrames (d_of_Z 10) (setFPS (d_of_Z 30) newLoop)).

(** A pen sample at [(x, y)] with pressure [pr]. *)
Definition ex_pt (x y pr : Q) : Point := mkPoint (Fin x) (Fin y) (Fin pr) (Fin 0) (Fin 0) (Fin 0).

Definition ex_brush : BrushSettings := mkBrushSettings Brush (Fin 10) "#000000" (Fin 1) (Fin (1 # 2)).

(** A fresh 2D context, with the canvas defaults. *)
Definition ex_ctx0 : Ctx :=
  mkCtx (mkDrawState (Fin 1) "butt" "miter" "#000000" "source-over") [] [] [].

(** A 3 x 1 canvas: two transparent black pixels around an opaque one. *)
Definition ex_canvas : list Z := [0; 0; 0; 0; 9; 9; 9; 255; 0; 0; 0; 0].
Definition ex_fill : string := "#ff0000".

(* ================================================================== *)
(** * Proofs *)

(** ** The monad *)

Lemma bind_getS {S B} (k : S -> M S B) s : bindM getS k s = k s s.
Proof. reflexivity. Qed.

Lemma bind_modifyS {S B} (f : S -> S) (k : unit -> M S B) s :
  bindM (modifyS f) k s = k tt (f s).
Proof. reflexivity. Qed.

Lemma exec_bind_getS {S B} (k : S -> M S B) s : exec (bindM getS k) s = exec (k s) s.
Proof. reflexivity. Qed.

Lemma exec_bind_modifyS {S B} (f : S -> S) (k : unit -> M S B) s :
  exec (bindM (modifyS f) k) s = exec (k tt) (f s).
Proof. reflexivity. Qed.

Lemma exec_ret {S A} (x : A) (s : S) : exec (ret x) s = s.
Proof. reflexivity. Qed.

(** A property of states kept by both halves of a bind. *)
Lemma exec_bind_pres {S A B} (P : S -> Prop) (m : M S A) (k : A -> M S B) s :
  P (exec m s) ->
  (forall x s', m s = (Ok x, s') -> P (exec (k x) s')) ->
  P (exec (bindM m k) s).
Proof.
  unfold exec, bindM. intros H1 H2. destruct (m s) as [[x|e] s'] eqn:E; simpl in *.
  - by apply H2.
  - exact H1.
Qed.

(** ** StorageManager *)

(** C9 *)
(** Before [init], every persistence operation rejects with
    "DB not initialized" and leaves the store as it was. *)
Theorem storage_requires_init (s : Store) (lid src dst : string) (b : blob) (f : Frame) :
  db s = false ->
  saveLayer lid b s = (Err not_initialized, s) /\
  getLayer lid s = (Err not_initialized, s) /\
  deleteLayer lid s = (Err not_initialized, s) /\
  copyLayer src dst s = (Err not_initialized, s) /\
  saveFrame f s = (Err not_initialized, s) /\
  getAllFrames s = (Err not_initialized, s).
Proof.
  intros H. unfold copyLayer, bindM, saveLayer, getLayer, deleteLayer, saveFrame, getAllFrames.
  rewrite H. repeat split; reflexivity.
Qed.

Lemma storage_requires_init_witness :
  db (mkStore false ∅ []) = false /\
  (saveLayer "a" [1] (mkStore false ∅ []) = (Err not_initialized, mkStore false ∅ []) /\
   getLayer "a" (mkStore false ∅ []) = (Err not_initialized, mkStore false ∅ []) /\
   deleteLayer "a" (mkStore false ∅ []) = (Err not_initialized, mkStore false ∅ []) /\
   copyLayer "a" "b" (mkStore false ∅ []) = (Err not_initialized, mkStore false ∅ []) /\
   saveFrame (mkFrame "f" 0 (mkFrameLayers "a" "b" "c")) (mkStore false ∅ [])
     = (Err not_initialized, mkStore false ∅ []) /\
   getAllFrames (mkStore false ∅ []) = (Err not_initialized, mkStore false ∅ [])).
Proof.
  split; [reflexivity |].
  apply (storage_requires_init (mkStore false ∅ []) "a" "a" "b" [1]
           (mkFrame "f" 0 (mkFrameLayers "a" "b" "c"))).
  reflexivity.
Defined.

(** ** Frames *)

Lemma exec_liftS_frames {A} (m : M Store A) a : frames (exec (liftS m) a) = frames a.
Proof. unfold exec, liftS. by destruct (m (store a)). Qed.

Lemma liftS_frames {A} (m : M Store A) a x a' : liftS m a = (x, a') -> frames a' = frames a.
Proof. unfold liftS. destruct (m (store a)). intros H. by inversion H. Qed.

Lemma reindex_contiguous (fs : list Frame) : indices_contiguous (reindex fs).
Proof.
  unfold indices_contiguous, reindex. rewrite length_imap. apply list_eq. intros i.
  rewrite !list_lookup_fmap, list_lookup_imap.
  destruct (decide (i < length fs)%nat) as [Hi|Hi].
  - rewrite lookup_seq_lt by done. destruct (lookup_lt_is_Some_2 fs i Hi) as [f ->]. done.
  - rewrite lookup_seq_ge by lia. rewrite lookup_ge_None_2 by lia. done.
Qed.

Lemma contiguous_snoc (fs : list Frame) fid ls :
  indices_contiguous fs ->
  indices_contiguous (fs ++ [mkFrame fid (Z.of_nat (length fs)) ls]).
Proof.
  unfold indices_contiguous. intros H. rewrite length_app. simpl.
  rewrite Nat.add_1_r, seq_S, !fmap_app, H. done.
Qed.

Lemma exec_loadFrameToCanvas i a : exec (loadFrameToCanvas i) a = a.
Proof.
  destruct a as [fs ci al U R [d lo fo]].
  unfold loadFrameToCanvas, exec, bindM, getS, liftS, getLayer, ret. simpl.
  destruct (frame_at fs i); [destruct d|]; reflexivity.
Qed.

Lemma frameEffect_run a :
  frameEffect a = (Ok tt, mkApp (frames a) (currentFrameIndex a) (activeLayer a) [] [] (store a)).
Proof. unfold frameEffect. rewrite exec_loadFrameToCanvas. reflexivity. Qed.

Lemma setFrames_effect_run fs a :
  setFrames_effect fs a = (Ok tt, mkApp fs (currentFrameIndex a) (activeLayer a) [] [] (store a)).
Proof. unfold setFrames_effect, bindM, setFrames, modifyS. rewrite frameEffect_run. reflexivity. Qed.

Lemma setCurrentFrameIndex_effect_run i a :
  setCurrentFrameIndex_effect i a =
  (Ok tt, mkApp (frames a) i (activeLayer a)
            (if currentFrameIndex a =? i then undoStack a else [])
            (if currentFrameIndex a =? i then redoStack a else []) (store a)).
Proof.
  unfold setCurrentFrameIndex_effect, bindM, getS, setCurrentFrameIndex, modifyS. simpl.
  destruct (currentFrameIndex a =? i); [reflexivity|]. rewrite frameEffect_run. reflexivity.
Qed.

Lemma frame_at_Some fs i f : frame_at fs i = Some f -> 0 <= i /\ (Z.to_nat i < length fs)%nat.
Proof.
  unfold frame_at. destruct (Z.ltb_spec i 0); [discriminate|].
  intros H'. split; [lia|]. by eapply lookup_lt_Some.
Qed.

Lemma exec_addFrame fs ci al U R d lo fo ids :
  let nf := createNewFrame ids (Z.of_nat (length fs)) in
  exec (addFrame ids) (mkApp fs ci al U R (mkStore d lo fo)) =
  if d then mkApp (fs ++ [nf]) (Z.of_nat (length fs)) al [] []
                  (mkStore true lo (put_sorted (frame_id nf) nf fo))
  else mkApp (fs ++ [nf]) ci al [] [] (mkStore false lo fo).
Proof.
  intros nf. unfold addFrame, exec, bindM, getS. cbn [frames].
  rewrite setFrames_effect_run. unfold liftS, saveFrame. cbn [store db].
  destruct d; [|reflexivity]. rewrite setCurrentFrameIndex_effect_run. cbn.
  rewrite length_app. cbn [length].
  replace (Z.of_nat (length fs + 1) - 1) with (Z.of_nat (length fs)) by lia.
  destruct (_ =? _); reflexivity.
Qed.

Lemma exec_duplicateFrame_none a i ids :
  frame_at (frames a) i = None -> exec (duplicateFrame i ids) a = a.
Proof. intros Hf. unfold duplicateFrame. rewrite exec_bind_getS, Hf. apply exec_ret. Qed.

Lemma exec_duplicateFrame_closed fs ci al U R lo fo i ids :
  exec (duplicateFrame i ids) (mkApp fs ci al U R (mkStore false lo fo)) =
  mkApp fs ci al U R (mkStore false lo fo).
Proof.
  unfold duplicateFrame. rewrite exec_bind_getS. cbn [frames].
  destruct (frame_at fs i); [reflexivity|apply exec_ret].
Qed.

Lemma exec_duplicateFrame_open fs ci al U R lo fo i fid bg la co src :
  frame_at fs i = Some src ->
  let nf := createNewFrame (fid, bg, la, co) (i + 1) in
  let cp s d m := match m !! s with Some b => <[d := b]> m | None => m end in
  exec (duplicateFrame i (fid, bg, la, co)) (mkApp fs ci al U R (mkStore true lo fo)) =
  mkApp (reindex (splice_insert (Z.to_nat (i + 1)) nf fs)) (i + 1) al [] []
        (mkStore true
           (cp (color (layers src)) co
              (cp (lineart (layers src)) la (cp (background (layers src)) bg lo)))
           (put_sorted fid nf fo)).
Proof.
  intros Hf nf cp. unfold duplicateFrame. rewrite exec_bind_getS. cbn [frames]. rewrite Hf.
  unfold exec, bindM, liftS, copyLayer, bindM, getLayer, saveLayer, ret.
  cbn -[setFrames_effect setCurrentFrameIndex_effect].
  unfold cp.
  destruct (lo !! background (layers src)) as [b1|]; cbn -[setFrames_effect setCurrentFrameIndex_effect];
  match goal with |- context [?m !! lineart (layers src)] => destruct (m !! lineart (layers src)) end;
  cbn -[setFrames_effect setCurrentFrameIndex_effect];
  match goal with |- context [?m !! color (layers src)] => destruct (m !! color (layers src)) end;
  cbn -[setFrames_effect setCurrentFrameIndex_effect];
  rewrite setFrames_effect_run; cbn -[setCurrentFrameIndex_effect];
  rewrite setCurrentFrameIndex_effect_run; cbn;
  destruct (ci =? i + 1); reflexivity.
Qed.

Lemma exec_deleteFrame_noop a i :
  (length (frames a) <= 1)%nat \/ frame_at (frames a) i = None ->
  exec (deleteFrame i) a = a.
Proof.
  intros H. unfold deleteFrame. rewrite exec_bind_getS.
  destruct (length (frames a) <=? 1)%nat eqn:E; [apply exec_ret|].
  destruct H as [H|H]; [apply Nat.leb_gt in E; lia|]. rewrite H. apply exec_ret.
Qed.

Lemma exec_deleteFrame_open fs ci al U R lo fo i f :
  (1 < length fs)%nat -> frame_at fs i = Some f ->
  let nfs := reindex (filter_index fs i) in
  exists lo',
  exec (deleteFrame i) (mkApp fs ci al U R (mkStore true lo fo)) =
  mkApp nfs (if ci >=? Z.of_nat (length nfs) then Z.max 0 (Z.of_nat (length nfs) - 1) else ci)
        al [] [] (mkStore true lo' fo).
Proof.
  intros Hl Hf nfs. unfold deleteFrame. rewrite exec_bind_getS. cbn [frames currentFrameIndex].
  destruct (length fs <=? 1)%nat eqn:E; [apply Nat.leb_le in E; lia|]. rewrite Hf.
  unfold exec, bindM. rewrite setFrames_effect_run. unfold liftS, deleteLayer.
  cbn -[setCurrentFrameIndex_effect].
  repeat match goal with |- context [String.eqb ?x ""] => destruct (String.eqb x "") end;
    cbn -[setCurrentFrameIndex_effect]; destruct (_ >=? _);
    try (rewrite setCurrentFrameIndex_effect_run; cbn; destruct (_ =? _));
    eexists; reflexivity.
Qed.

Lemma exec_deleteFrame_closed fs ci al U R lo fo i f :
  (1 < length fs)%nat -> frame_at fs i = Some f ->
  exec (deleteFrame i) (mkApp fs ci al U R (mkStore false lo fo)) =
  mkApp (reindex (filter_index fs i)) ci al [] [] (mkStore false lo fo).
Proof.
  intros Hl Hf. unfold deleteFrame. rewrite exec_bind_getS. cbn [frames currentFrameIndex].
  destruct (length fs <=? 1)%nat eqn:E; [apply Nat.leb_le in E; lia|]. rewrite Hf.
  unfold exec, bindM. rewrite setFrames_effect_run. reflexivity.
Qed.

Lemma runFrameOp_contiguous (o : FrameOp) (a : App) :
  indices_contiguous (frames a) -> indices_contiguous (frames (exec (runFrameOp o) a)).
Proof.
  intros H. destruct a as [fs ci al U R [d lo fo]]; cbn [frames] in H.
  destruct o as [[[[fid bg] la] co] | i [[[fid bg] la] co] | i]; cbn [runFrameOp].
  - rewrite exec_addFrame. destruct d; by apply contiguous_snoc.
  - destruct (frame_at fs i) as [f|] eqn:Hf; [|by rewrite exec_duplicateFrame_none].
    destruct d; [|by rewrite exec_duplicateFrame_closed].
    rewrite (exec_duplicateFrame_open _ _ _ _ _ _ _ _ _ _ _ _ _ Hf). apply reindex_contiguous.
  - destruct (decide (1 < length fs)%nat) as [Hl|Hl];
      [|rewrite exec_deleteFrame_noop; [done|left; cbn; lia]].
    destruct (frame_at fs i) as [f|] eqn:Hf; [|by rewrite exec_deleteFrame_noop; [|right]].
    destruct d.
    + destruct (exec_deleteFrame_open fs ci al U R lo fo i f Hl Hf) as [lo' ->].
      apply reindex_contiguous.
    + rewrite (exec_deleteFrame_closed _ _ _ _ _ _ _ _ _ Hl Hf). apply reindex_contiguous.
Qed.

(** C4 *)
(** After any sequence of add, duplicate and delete operations, the frame
    list's indices are exactly [0 .. count-1], in order. *)
Theorem frame_indices_contiguous (os : list FrameOp) (a : App) :
  indices_contiguous (frames a) -> indices_contiguous (frames (runFrameOps os a)).
Proof.
  revert a. induction os as [|o os IH]; intros a H; simpl; [done|].
  apply IH. by apply runFrameOp_contiguous.
Qed.

Lemma frame_indices_contiguous_witness :
  indices_contiguous (frames ex_app) /\
  indices_contiguous
    (frames (runFrameOps [OpDuplicate 0 ("f2", "b2", "l2", "c2"); OpDelete 1;
                          OpAdd ("f3", "b3", "l3", "c3"); OpDelete 0] ex_app)).
Proof.
  split; [reflexivity|].
  apply frame_indices_contiguous. reflexivity.
Defined.

(** C8 *)
(** With exactly one frame, [deleteFrame] returns at once: frame list,
    current index, stacks and store are unchanged. *)
Theorem deleteFrame_single_noop (a : App) (i : Z) :
  length (frames a) = 1%nat -> deleteFrame i a = (Ok tt, a).
Proof.
  intros H. unfold deleteFrame, bindM, getS. rewrite H. reflexivity.
Qed.

Lemma deleteFrame_single_noop_witness :
  length (frames ex_app_single) = 1%nat /\ deleteFrame 0 ex_app_single = (Ok tt, ex_app_single).
Proof.
  split; [reflexivity|]. apply deleteFrame_single_noop. reflexivity.
Defined.

(** C5 *)
(** [deleteFrame] with two frames leaves the deleted frame's record in the
    [frames] object store, and [getAllFrames], which the next start of the
    app loads its frame list from, still returns it. *)
Lemma deleteFrame_keeps_record :
  (1 < length (frames ex_app))%nat /\
  frame_at (frames ex_app) 0 = Some ex_frame0 /\
  frame_record_stored (store ex_app) "f0" = true /\
  frame_record_stored (store (exec (deleteFrame 0) ex_app)) "f0" = true /\
  fst (getAllFrames (store (exec (deleteFrame 0) ex_app))) = Ok [ex_frame0; ex_frame1].
Proof. vm_compute. repeat split; reflexivity. Qed.

Lemma String_eqb_neq_empty (s : string) : s <> "" -> String.eqb s "" = false.
Proof. intros H. apply String.eqb_neq. exact H. Qed.

(** C5, as the code does it: the frame leaves the list, its three layer
    blobs leave the [layers] store, and the [frames] store is untouched, so
    the frame's record stays. *)
Theorem deleteFrame_effect (a : App) (i : Z) (f : Frame) :
  (1 < length (frames a))%nat ->
  frame_at (frames a) i = Some f ->
  db (store a) = true ->
  (forall t, layer_of (layers f) t <> "") ->
  let a' := exec (deleteFrame i) a in
  frames a' = reindex (filter_index (frames a) i) /\
  (forall t, layers_os (store a') !! layer_of (layers f) t = None) /\
  frames_os (store a') = frames_os (store a).
Proof.
  intros Hlen Hf Hdb Hne.
  destruct a as [fs ci al us rs [dbb lo fo]]; simpl in *; subst dbb.
  pose proof (String_eqb_neq_empty _ (Hne Background)) as Hb.
  pose proof (String_eqb_neq_empty _ (Hne Lineart)) as Hl.
  pose proof (String_eqb_neq_empty _ (Hne Color)) as Hc.
  simpl in Hb, Hl, Hc.
  unfold deleteFrame. rewrite exec_bind_getS. simpl.
  destruct (length fs <=? 1)%nat eqn:E; [apply Nat.leb_le in E; lia|].
  rewrite Hf. unfold exec, bindM. rewrite setFrames_effect_run.
  unfold liftS, deleteLayer. cbn -[setCurrentFrameIndex_effect]. rewrite Hb, Hl, Hc.
  cbn -[setCurrentFrameIndex_effect].
  destruct (_ >=? _); [rewrite setCurrentFrameIndex_effect_run|]; simpl;
    (split; [reflexivity|split; [|reflexivity]]);
    intros []; simpl;
    repeat first [ rewrite lookup_delete_eq; reflexivity
                 | rewrite lookup_delete; case_decide; [reflexivity|] ];
    congruence.
Qed.

Lemma deleteFrame_effect_witness :
  let a' := exec (deleteFrame 0) ex_app in
  frames a' = reindex (filter_index (frames ex_app) 0) /\
  (forall t, layers_os (store a') !! layer_of (layers ex_frame0) t = None) /\
  frames_os (store a') = frames_os (store ex_app).
Proof.
  apply deleteFrame_effect; [simpl; lia | reflexivity | reflexivity |].
  intros []; discriminate.
Defined.

(** ** Undo and redo *)

Lemma exec_undo_open fs ci al U R lo fo f :
  U <> [] -> frame_at fs ci = Some f ->
  exec undo (mkApp fs ci al U R (mkStore true lo fo)) =
  mkApp fs ci al (removelast U) (R ++ [lo !! layer_of (layers f) al])
        (mkStore true (restore_layer (layer_of (layers f) al) (List.last U None) lo) fo).
Proof.
  intros HU Hf. unfold undo. rewrite exec_bind_getS. cbn [undoStack frames currentFrameIndex].
  destruct (decide (U = [])); [contradiction|]. rewrite Hf.
  unfold exec, bindM, liftS, getLayer, setRedoStack, setUndoStack, modifyS. simpl.
  destruct (List.last U None) as [b|]; unfold restore_layer, saveLayer, deleteLayer; simpl;
    [|destruct String.eqb];
    unfold loadFrameToCanvas, bindM, getS, liftS, getLayer; simpl; rewrite Hf; reflexivity.
Qed.

Lemma exec_redo_open fs ci al U R lo fo f :
  R <> [] -> frame_at fs ci = Some f ->
  exec redo (mkApp fs ci al U R (mkStore true lo fo)) =
  mkApp fs ci al (U ++ [lo !! layer_of (layers f) al]) (removelast R)
        (mkStore true (restore_layer (layer_of (layers f) al) (List.last R None) lo) fo).
Proof.
  intros HR Hf. unfold redo. rewrite exec_bind_getS. cbn [redoStack frames currentFrameIndex].
  destruct (decide (R = [])); [contradiction|]. rewrite Hf.
  unfold exec, bindM, liftS, getLayer, setRedoStack, setUndoStack, modifyS. simpl.
  destruct (List.last R None) as [b|]; unfold restore_layer, saveLayer, deleteLayer; simpl;
    [|destruct String.eqb];
    unfold loadFrameToCanvas, bindM, getS, liftS, getLayer; simpl; rewrite Hf; reflexivity.
Qed.

Lemma exec_undo_closed (a : App) :
  frame_at (frames a) (currentFrameIndex a) = None \/ db (store a) = false ->
  exec undo a = a.
Proof.
  destruct a as [fs ci al U R [dbb lo fo]]; simpl. intros H.
  unfold undo. rewrite exec_bind_getS. cbn [undoStack frames currentFrameIndex].
  destruct (decide (U = [])); [reflexivity|].
  destruct (frame_at fs ci) eqn:Hf; [|reflexivity].
  destruct H as [H|H]; [discriminate|subst dbb]. reflexivity.
Qed.

Lemma exec_redo_closed (a : App) :
  frame_at (frames a) (currentFrameIndex a) = None \/ db (store a) = false ->
  exec redo a = a.
Proof.
  destruct a as [fs ci al U R [dbb lo fo]]; simpl. intros H.
  unfold redo. rewrite exec_bind_getS. cbn [redoStack frames currentFrameIndex].
  destruct (decide (R = [])); [reflexivity|].
  destruct (frame_at fs ci) eqn:Hf; [|reflexivity].
  destruct H as [H|H]; [discriminate|subst dbb]. reflexivity.
Qed.

Lemma exec_redo_empty fs ci al U st :
  exec redo (mkApp fs ci al U [] st) = mkApp fs ci al U [] st.
Proof. reflexivity. Qed.

Lemma exec_mutation_open fs ci al U R lo fo f nb :
  frame_at fs ci = Some f ->
  exec (mutation nb) (mkApp fs ci al U R (mkStore true lo fo)) =
  mkApp fs ci al (slice_last19 U ++ [lo !! layer_of (layers f) al]) []
        (mkStore true (match nb with
                       | Some b => <[layer_of (layers f) al := b]> lo
                       | None => lo
                       end) fo).
Proof.
  intros Hf. unfold mutation. rewrite exec_bind_getS. cbn [frames currentFrameIndex].
  rewrite Hf. unfold exec, bindM, pushUndoSnapshot, liftS, getLayer, setUndoStack,
    setRedoStack, modifyS. simpl.
  destruct nb as [b|]; [|reflexivity].
  unfold saveStroke, bindM, getS. simpl. rewrite Hf. reflexivity.
Qed.

Lemma exec_mutation_closed (a : App) nb :
  frame_at (frames a) (currentFrameIndex a) = None \/ db (store a) = false ->
  exec (mutation nb) a = a.
Proof.
  destruct a as [fs ci al U R [dbb lo fo]]; simpl. intros H.
  unfold mutation. rewrite exec_bind_getS. cbn [frames currentFrameIndex].
  destruct (frame_at fs ci) eqn:Hf.
  - destruct H as [H|H]; [discriminate|subst dbb].
    unfold exec, bindM, pushUndoSnapshot, liftS, getLayer. simpl.
    destruct nb; [|reflexivity]. unfold saveStroke, bindM, getS. simpl. rewrite Hf. reflexivity.
  - unfold exec, bindM, ret. simpl.
    destruct nb; [|reflexivity]. unfold saveStroke, bindM, getS. simpl. rewrite Hf. reflexivity.
Qed.

Lemma restore_layer_other lid ob lo j :
  j <> lid -> restore_layer lid ob lo !! j = lo !! j.
Proof.
  intros Hne. unfold restore_layer. destruct ob as [b|].
  - by rewrite lookup_insert_ne.
  - destruct String.eqb; [done|]. by rewrite lookup_delete_ne.
Qed.

Lemma restore_layer_Some lid b lo : restore_layer lid (Some b) lo !! lid = Some b.
Proof. apply lookup_insert_eq. Qed.

Lemma restore_layer_None_absent lid lo :
  lo !! lid = None -> restore_layer lid None lo = lo.
Proof.
  intros H. unfold restore_layer. destruct String.eqb; [done|]. by apply delete_id.
Qed.

(** Restoring the current blob after restoring a snapshot gives the store
    back, unless the snapshot is a blob and the layer was absent. *)
Lemma restore_layer_back lid p lo :
  (lo !! lid = None -> p = None) ->
  restore_layer lid (lo !! lid) (restore_layer lid p lo) = lo.
Proof.
  intros H. destruct (lo !! lid) as [x|] eqn:E.
  - apply map_eq. intros j. destruct (decide (j = lid)) as [->|Hne].
    + by rewrite restore_layer_Some.
    + by rewrite !restore_layer_other.
  - rewrite H by done. by rewrite !(restore_layer_None_absent lid lo E).
Qed.

Lemma atp_Forall_Some (l : list (option blob)) :
  Forall (fun o => is_Some o) l -> absent_then_present l.
Proof.
  induction l as [|[x|] l IH]; simpl; intros H; [done| |].
  - by inversion H.
  - inversion H as [|? ? Hx]. destruct Hx; discriminate.
Qed.

Lemma atp_app_l (l1 l2 : list (option blob)) :
  absent_then_present (l1 ++ l2) -> absent_then_present l1.
Proof.
  induction l1 as [|[x|] l1 IH]; simpl; intros H; [done| |auto].
  by apply Forall_app in H as [H _].
Qed.

Lemma atp_app_r (l1 l2 : list (option blob)) :
  absent_then_present (l1 ++ l2) -> absent_then_present l2.
Proof.
  induction l1 as [|[x|] l1 IH]; simpl; intros H; [done| |auto].
  apply atp_Forall_Some. by apply Forall_app in H as [_ H].
Qed.

Lemma atp_drop (l : list (option blob)) n :
  absent_then_present l -> absent_then_present (drop n l).
Proof. intros H. rewrite <- (take_drop n l) in H. by apply atp_app_r in H. Qed.

Lemma atp_snoc_None (l : list (option blob)) :
  absent_then_present (l ++ [None]) -> Forall (fun o => o = None) l.
Proof.
  induction l as [|[x|] l IH]; simpl; intros H; auto.
  apply Forall_app in H as [_ H]. inversion H as [|? ? Hx]. destruct Hx; discriminate.
Qed.

Lemma atp_all_None (l : list (option blob)) x :
  Forall (fun o => o = None) l -> absent_then_present (l ++ [x]).
Proof.
  induction l as [|y l IH]; simpl; intros H.
  - destruct x; simpl; auto.
  - inversion H; subst. simpl. auto.
Qed.

Lemma atp_snoc_Some (l : list (option blob)) b :
  absent_then_present l -> absent_then_present (l ++ [Some b]).
Proof.
  induction l as [|[x|] l IH]; simpl; intros H; auto.
  apply Forall_app. split; [done|]. constructor; [done|constructor].
Qed.

Lemma atp_dup_last (l : list (option blob)) v :
  absent_then_present (l ++ [v]) -> absent_then_present (l ++ [v; v]).
Proof.
  induction l as [|[x|] l IH]; simpl; intros H; auto.
  - destruct v; simpl; auto.
  - apply Forall_app in H as [H1 H2]. apply Forall_app. split; [done|].
    inversion H2; subst. repeat constructor; done.
Qed.

Lemma lastn_snoc {A} (l : list A) x k :
  (k <= length l)%nat -> lastn (S k) (l ++ [x]) = lastn k l ++ [x].
Proof.
  intros H. unfold lastn. rewrite length_app. simpl.
  replace (length l + 1 - S k)%nat with (length l - k)%nat by lia.
  by rewrite drop_app_le by lia.
Qed.

Lemma lastn_slice_last19 {A} (l : list A) k :
  (k <= 19)%nat -> (k <= length l)%nat -> lastn k (slice_last19 l) = lastn k l.
Proof.
  intros H1 H2. unfold lastn, slice_last19. rewrite length_drop, drop_drop. f_equal. lia.
Qed.

Lemma length_slice_last19 {A} (l : list A) :
  length (slice_last19 l) = (length l - (length l - 19))%nat.
Proof. unfold slice_last19. by rewrite length_drop. Qed.

Lemma lastn_pred {A} (l : list A) k :
  (S k <= length l)%nat -> lastn k l = drop 1 (lastn (S k) l).
Proof. intros H. unfold lastn. rewrite drop_drop. f_equal. lia. Qed.

Lemma lastn_zero {A} (l : list A) : lastn 0 l = [].
Proof. unfold lastn. rewrite Nat.sub_0_r. apply drop_all. Qed.

Lemma removelast_snoc_split {A} (l : list A) (d : A) :
  l <> [] -> l = removelast l ++ [List.last l d].
Proof. apply app_removelast_last. Qed.

Lemma undo_ready_weaken k a : undo_ready (S k) a -> undo_ready k a.
Proof.
  intros (f & Hf & Hdb & Hlen & H). exists f. repeat split; try done; [lia|].
  rewrite (lastn_pred _ k) by done.
  set (L := lastn (S k) (undoStack a)) in *.
  assert (Hc : drop 1 L ++ [layers_os (store a) !! layer_of (layers f) (activeLayer a)]
               = drop 1 (L ++ [layers_os (store a) !! layer_of (layers f) (activeLayer a)])).
  { rewrite drop_app_le; [done|]. subst L. unfold lastn. rewrite length_drop. lia. }
  rewrite Hc. by apply atp_drop.
Qed.

Lemma undo_ready_undo k a : undo_ready (S k) a -> undo_ready k (exec undo a).
Proof.
  destruct a as [fs ci al U R [dbb lo fo]].
  intros (f & Hf & Hdb & Hlen & H); simpl in *. subst dbb.
  assert (HU : U <> []) by (intros ->; simpl in Hlen; lia).
  rewrite (exec_undo_open _ _ _ _ _ _ _ f HU Hf).
  pose proof (removelast_snoc_split U None HU) as HUe.
  set (U' := removelast U) in *. set (top := List.last U None) in *.
  assert (Hlen' : (k <= length U')%nat).
  { rewrite HUe, length_app in Hlen. simpl in Hlen. lia. }
  exists f. simpl. repeat split; try done.
  rewrite HUe, lastn_snoc in H by done. rewrite <- app_assoc in H. simpl in H.
  set (L := lastn k U') in *. set (lid := layer_of (layers f) al) in *.
  destruct top as [p|] eqn:Etop.
  - rewrite restore_layer_Some. apply (atp_app_l _ [lo !! lid]). by rewrite <- app_assoc.
  - assert (HL : Forall (fun o => o = None) L).
    { apply atp_snoc_None. apply (atp_app_l _ [lo !! lid]). by rewrite <- app_assoc. }
    apply atp_all_None. exact HL.
Qed.

Lemma undo_ready_clicks n k a : undo_ready (n + k) a -> undo_ready k (clicks n undo a).
Proof.
  revert a. induction n as [|n IH]; intros a H; simpl; [done|].
  apply IH. by apply undo_ready_undo.
Qed.

Lemma same_but_undo_refl a : same_but_undo a a.
Proof. repeat split. Qed.

Lemma same_but_undo_trans a b c :
  same_but_undo a b -> same_but_undo b c -> same_but_undo a c.
Proof. unfold same_but_undo. intuition congruence. Qed.

Lemma redo_undo_same a : undo_ready 1 a -> same_but_undo (exec redo (exec undo a)) a.
Proof.
  destruct a as [fs ci al U R [dbb lo fo]].
  intros (f & Hf & Hdb & Hlen & H); simpl in *. subst dbb.
  assert (HU : U <> []) by (intros ->; simpl in Hlen; lia).
  rewrite (exec_undo_open _ _ _ _ _ _ _ f HU Hf).
  rewrite (exec_redo_open _ _ _ _ _ _ _ f) by (done || by destruct R).
  rewrite removelast_last, last_last.
  unfold same_but_undo. simpl. repeat split. f_equal.
  apply restore_layer_back. intros Habs.
  pose proof (removelast_snoc_split U None HU) as HUe.
  rewrite HUe, (lastn_snoc _ _ 0), lastn_zero in H by lia. simpl in H.
  rewrite Habs in H. destruct (List.last U None); [|done].
  simpl in H. inversion H as [|? ? Hx]. destruct Hx; discriminate.
Qed.

Lemma redo_congr a b : same_but_undo a b -> same_but_undo (exec redo a) (exec redo b).
Proof.
  destruct a as [fs ci al U1 R st], b as [fs' ci' al' U2 R' st'].
  unfold same_but_undo; simpl. intros (<- & <- & <- & <- & <-).
  destruct st as [dbb lo fo].
  destruct (frame_at fs ci) as [f|] eqn:Hf.
  - destruct dbb.
    + destruct (decide (R = [])) as [->|HR].
      * rewrite !exec_redo_empty. repeat split.
      * rewrite !(exec_redo_open _ _ _ _ _ _ _ f) by done. repeat split.
    + rewrite !exec_redo_closed by (simpl; auto). repeat split.
  - rewrite !exec_redo_closed by (simpl; auto). repeat split.
Qed.

Lemma clicks_S_r n m a : clicks (S n) m a = exec m (clicks n m a).
Proof. revert a. induction n as [|n IH]; intros a; [done|]. simpl in *. apply IH. Qed.

Lemma redo_clicks_congr n a b :
  same_but_undo a b -> same_but_undo (clicks n redo a) (clicks n redo b).
Proof.
  revert a b. induction n as [|n IH]; intros a b H; simpl; [done|].
  apply IH. by apply redo_congr.
Qed.

(** [k] undos followed by [k] redos give back the state, undo stack apart,
    when [k] undo steps are available. *)
Lemma undo_redo_clicks k a :
  undo_ready k a -> same_but_undo (clicks k redo (clicks k undo a)) a.
Proof.
  revert a. induction k as [|k IH]; intros a H; [apply same_but_undo_refl|].
  change (clicks (S k) undo a) with (clicks k undo (exec undo a)).
  rewrite clicks_S_r.
  apply (same_but_undo_trans _ (exec redo (exec undo a))).
  - apply redo_congr. apply IH. by apply undo_ready_undo.
  - apply redo_undo_same. clear IH. induction k as [|k IHk]; [done|].
    apply IHk. by apply undo_ready_weaken.
Qed.

Lemma mutation_ready j a nb :
  (S j <= 20)%nat -> undo_ready j a -> undo_ready (S j) (exec (mutation nb) a).
Proof.
  destruct a as [fs ci al U R [dbb lo fo]].
  intros Hj (f & Hf & Hdb & Hlen & H); simpl in *. subst dbb.
  rewrite (exec_mutation_open _ _ _ _ _ _ _ f) by done.
  exists f. simpl. repeat split; try done.
  - rewrite length_app, length_slice_last19. simpl. lia.
  - rewrite lastn_snoc by (rewrite length_slice_last19; lia).
    rewrite lastn_slice_last19 by lia. rewrite <- app_assoc. simpl.
    destruct nb as [b|].
    + rewrite lookup_insert_eq. change [lo !! layer_of (layers f) al; Some b]
        with ([lo !! layer_of (layers f) al] ++ [Some b]).
      rewrite app_assoc. by apply atp_snoc_Some.
    + by apply atp_dup_last.
Qed.

Lemma mutations_ready bs j a :
  (j + length bs <= 20)%nat -> undo_ready j a -> undo_ready (j + length bs) (mutations bs a).
Proof.
  revert j a. induction bs as [|b bs IH]; intros j a Hj H; simpl.
  - by rewrite Nat.add_0_r.
  - rewrite <- Nat.add_succ_comm. apply IH; [simpl in Hj; lia|].
    apply mutation_ready; [simpl in Hj; lia|done].
Qed.

Lemma mutations_closed bs a :
  frame_at (frames a) (currentFrameIndex a) = None \/ db (store a) = false ->
  mutations bs a = a.
Proof.
  revert a. induction bs as [|b bs IH]; intros a H; simpl; [done|].
  rewrite exec_mutation_closed by done. by apply IH.
Qed.

Lemma clicks_closed n m a :
  exec m a = a -> clicks n m a = a.
Proof. intros H. induction n as [|n IH]; simpl; [done|]. by rewrite H. Qed.

(** C2 *)
(** For [k] mutations of one (frame, layer) pair, [k] at most the depth
    of 20 kept by the undo stack, [k] undos then [k] redos leave the
    persisted blob of that pair as it was right after the [k]-th mutation. *)
Theorem undo_redo_symmetry (a : App) (bs : list (option blob)) :
  (length bs <= 20)%nat ->
  let a1 := mutations bs a in
  active_blob (clicks (length bs) redo (clicks (length bs) undo a1)) = active_blob a1.
Proof.
  intros Hk a1.
  destruct (frame_at (frames a) (currentFrameIndex a)) as [f|] eqn:Hf;
    [destruct (db (store a)) eqn:Hdb|].
  - assert (Hr : undo_ready (length bs) a1).
    { apply (mutations_ready bs 0 a); [done|].
      exists f. repeat split; try done; [lia|]. rewrite lastn_zero. simpl.
      destruct (_ !! _); simpl; auto. }
    destruct (undo_redo_clicks _ _ Hr) as (E1 & E2 & E3 & _ & E5).
    unfold active_blob. by rewrite E1, E2, E3, E5.
  - unfold a1. rewrite mutations_closed by auto.
    rewrite (clicks_closed _ undo a) by (apply exec_undo_closed; auto).
    by rewrite (clicks_closed _ redo a) by (apply exec_redo_closed; auto).
  - unfold a1. rewrite mutations_closed by auto.
    rewrite (clicks_closed _ undo a) by (apply exec_undo_closed; auto).
    by rewrite (clicks_closed _ redo a) by (apply exec_redo_closed; auto).
Qed.

Lemma undo_redo_symmetry_witness :
  (length [Some [1]; None; Some [2; 3]] <= 20)%nat /\
  active_blob (clicks 3 redo (clicks 3 undo (mutations [Some [1]; None; Some [2; 3]] ex_app)))
  = active_blob (mutations [Some [1]; None; Some [2; 3]] ex_app).
Proof.
  split; [simpl; lia|].
  apply (undo_redo_symmetry ex_app [Some [1]; None; Some [2; 3]]). simpl; lia.
Defined.

(** C3, as the code computes it at 30 fps: the interval is [1000 / 30] =
    33.333333333333336, and a tick at 1100 ms, 100 ms after the last one,
    divides [100 / 33.333333333333336] to the double 3 (the exact quotient
    is just below 3), so the frame advances by [Math.floor] of it, 3, and
    [onFrame(3)] is called once; [lastTime] becomes
    [1100 - 100 % 33.333333333333336], which is 1066.6666666666667. *)
Theorem loop_tick_fps30 :
  frameInterval ex_loop30 = d_div (d_of_Z 1000) (d_of_Z 30) /\
  lastTime ex_loop30 = d_of_Z 1000 /\
  d_div (d_sub (d_of_Z 1100) (lastTime ex_loop30)) (frameInterval ex_loop30) = d_of_Z 3 /\
  loop (d_of_Z 1100) ex_loop30 =
    (mkLoop (fps ex_loop30) true
            (d_sub (d_of_Z 1100) (js_rem (d_of_Z 100) (frameInterval ex_loop30)))
            (frameInterval ex_loop30) (d_of_Z 10) (d_of_Z 3), [d_of_Z 3]) /\
  (dval (lastTime (fst (loop (d_of_Z 1100) ex_loop30))) == 4691249611844267 # 4398046511104)%Q.
Proof. vm_compute. repeat split; reflexivity. Qed.

(** C3 fails at that tick. There [elapsed = 100] reaches the interval
    33.333333333333336, and [floor(elapsed / frameInterval)] of these values
    is 2, so the claim's new frame is [(0 + 2) mod 10 = 2]; the code calls
    [onFrame] with 3, and moves [lastTime] by less than three intervals. *)
Lemma loop_tick_counterexample :
  let s := ex_loop30 in
  let now := d_of_Z 1100 in
  let elapsed := (dval now - dval (lastTime s))%Q in
  let adv := Qfloor (elapsed / dval (frameInterval s)) in
  isPlaying s = true /\
  (dval (frameInterval s) <= elapsed)%Q /\
  adv = 2 /\
  (Qfloor (dval (currentFrame s)) + adv) mod Qfloor (dval (totalFrames s)) = 2 /\
  snd (loop now s) = [d_of_Z 3] /\ (dval (d_of_Z 3) == 3)%Q /\
  (dval (lastTime (fst (loop now s))) - dval (lastTime s) < 3 * dval (frameInterval s))%Q.
Proof. vm_compute. repeat split; first [reflexivity | discriminate]. Qed.

Lemma spline_iters_strokes p0 p1 p2 p3 t0 t1 t2 t3 st i fuel c :
  strokes (spline_iters p0 p1 p2 p3 t0 t1 t2 t3 st i fuel c) = strokes c.
Proof.
  revert i c. induction fuel as [|fuel IH]; intros i c; simpl; [done|].
  destruct (spline_point p0 p1 p2 p3 t0 t1 t2 t3 i) as [[cx cy] pr].
  rewrite IH.
  assert (Hw : forall v c, strokes (set_lineWidth v c) = strokes c).
  { intros [q| | |] c'; simpl; try done. by destruct Qlt_le_dec. }
  destruct (i =? 0)%nat; unfold moveTo, lineTo; [simpl; apply Hw|].
  destruct (rev (path _)); simpl; apply Hw.
Qed.

(** C6 *)
(** From the fourth sample of a brush or eraser stroke on, each [addPoint]
    strokes the canvas exactly once: the ten spline sub-segments form one
    path stroked with one width, not ten segments of their own. *)
Theorem addPoint_one_stroke (p : Point) (st : BrushSettings) (e : Engine) :
  (tool st = Brush \/ tool st = Eraser) -> (3 <= length (points e))%nat ->
  exists op, strokes (ctx (addPoint p st e)) = strokes (ctx e) ++ [op].
Proof.
  intros Ht Hl.
  assert (Hlen : length (points e ++ [p]) = S (length (points e)))
    by (rewrite length_app; simpl; lia).
  assert (H4 : (length (points e ++ [p]) <? 4)%nat = false) by (apply Nat.ltb_ge; lia).
  assert (Hd : forall c, exists op, strokes (drawSpline (points e ++ [p]) st c) = strokes c ++ [op]).
  { intros c. unfold drawSpline. set (pts := points e ++ [p]) in *.
    destruct (lookup_lt_is_Some_2 pts (length pts - 4)) as [q0 ->]; [lia|].
    destruct (lookup_lt_is_Some_2 pts (length pts - 3)) as [q1 ->]; [lia|].
    destruct (lookup_lt_is_Some_2 pts (length pts - 2)) as [q2 ->]; [lia|].
    destruct (lookup_lt_is_Some_2 pts (length pts - 1)) as [q3 ->]; [lia|].
    eexists. unfold stroke at 1. cbn [strokes]. rewrite spline_iters_strokes. reflexivity. }
  assert (Hr : forall c, strokes (ctx_restore c) = strokes c)
    by (intros c; unfold ctx_restore; destruct (saved c); done).
  unfold addPoint. destruct Ht as [Ht|Ht]; rewrite Ht; cbn [ctx]; rewrite H4, Hr.
  - destruct (Hd (ctx_save (ctx e))) as [op Hop]. exists op. by rewrite Hop.
  - destruct (Hd (set_composite "destination-out" (ctx_save (ctx e)))) as [op Hop].
    exists op. by rewrite Hop.
Qed.

Lemma addPoint_one_stroke_witness :
  exists op, strokes (ctx (addPoint (ex_pt 30 0 1) ex_brush
               (mkEngine [ex_pt 0 0 (1 # 2); ex_pt 10 0 (1 # 2); ex_pt 20 0 1] ex_ctx0)))
             = strokes ex_ctx0 ++ [op].
Proof.
  apply (addPoint_one_stroke (ex_pt 30 0 1) ex_brush
           (mkEngine [ex_pt 0 0 (1 # 2); ex_pt 10 0 (1 # 2); ex_pt 20 0 1] ex_ctx0)).
  - left. reflexivity.
  - simpl. lia.
Defined.

(** The fourth sample of a stroke whose pressure goes from 0.5 to 1 between
    [p1] and [p2], with brush size 10: one stroke operation, of width 10
    ([size * p2.pressure]), over a single path of the 11 curve points. *)
Lemma addPoint_spline_width_counterexample :
  let e := addPoint (ex_pt 30 0 1) ex_brush
             (mkEngine [ex_pt 0 0 (1 # 2); ex_pt 10 0 (1 # 2); ex_pt 20 0 1] ex_ctx0) in
  map so_width (strokes (ctx e)) = [Fin 10] /\
  map (fun op => length <$> so_path op) (strokes (ctx e)) = [[11%nat]].
Proof. vm_compute. split; reflexivity. Qed.

(** C10 *)
(** Two consecutive samples at the same point give equal knots
    ([getT t0 p0 p1 = t0]); the blends then divide 0 by 0 and every one of
    the 11 curve points of the stroked path is [(NaN, NaN)]. *)
Theorem spline_coincident_nan :
  getT (Fin 0) (ex_pt 0 0 (1 # 2)) (ex_pt 0 0 (1 # 2)) = Fin 0 /\
  map so_path
    (strokes (ctx (addPoint (ex_pt 20 0 1) ex_brush
       (mkEngine [ex_pt 0 0 (1 # 2); ex_pt 0 0 (1 # 2); ex_pt 10 0 1] ex_ctx0))))
  = [[repeat (NaN, NaN) 11]].
Proof. vm_compute. split; reflexivity. Qed.

(* ------------------------------------------------------------------ *)
(** ** Flood fill *)

Lemma reach_start A s p : reach A s p -> A s.
Proof. induction 1; auto. Qed.

Lemma reach_end A s p : reach A s p -> A p.
Proof. induction 1; auto. Qed.

Lemma reach_mono (A B : Z * Z -> Prop) s p :
  (forall x, A x -> B x) -> reach A s p -> reach B s p.
Proof.
  intros HAB. induction 1 as [Hs|p q _ IH Hpq Hq].
  - apply reach_refl. auto.
  - eapply reach_step; eauto.
Qed.

(** A path that avoids [q] at its end either avoids it everywhere or
    restarts at a neighbour of [q]. *)
Lemma reach_split (A : Z * Z -> Prop) q s p :
  reach A s p -> p <> q ->
  reach (fun x => A x /\ x <> q) s p \/
  exists n, adj q n /\ reach (fun x => A x /\ x <> q) n p.
Proof.
  induction 1 as [Hs|p0 p1 Hr IH Hadj Hp1]; intros Hne.
  - left. apply reach_refl. auto.
  - destruct (decide (p0 = q)) as [->|Hne0].
    + right. exists p1. split; [done|]. apply reach_refl. auto.
    + destruct (IH Hne0) as [H|(n & Hn & H)].
      * left. eapply reach_step; eauto.
      * right. exists n. split; [done|]. eapply reach_step; eauto.
Qed.

Lemma length_write d i v : length (write d i v) = length d.
Proof. unfold write. destruct (i <? 0); [done|]. apply length_insert. Qed.

Lemma read_write_same d i v :
  0 <= i -> (Z.to_nat i < length d)%nat -> read (write d i v) i = Some v.
Proof.
  intros H1 H2. unfold read, write.
  destruct (Z.ltb_spec i 0); [lia|]. by apply list_lookup_insert_eq.
Qed.

Lemma read_write_other d i j v : i <> j -> read (write d i v) j = read d j.
Proof.
  intros Hne. unfold read, write.
  destruct (Z.ltb_spec i 0); [done|]. destruct (Z.ltb_spec j 0); [done|].
  apply list_lookup_insert_ne. lia.
Qed.

Lemma colorsMatch_iff (a0 a1 a2 a3 : option Z) (c : list (option Z)) :
  length c = 4%nat -> colorsMatch [a0; a1; a2; a3] c = true <-> [a0; a1; a2; a3] = c.
Proof.
  intros Hc. destruct c as [|c0 [|c1 [|c2 [|c3 [|]]]]]; simpl in Hc; try lia.
  unfold colorsMatch. simpl. rewrite !andb_true_iff, !bool_decide_eq_true.
  split.
  - intros [[[E0 E1] E2] E3]. simplify_eq. done.
  - intros H. simplify_eq. auto.
Qed.

Lemma length_getPixel d w x y : length (getPixel d w x y) = 4%nat.
Proof. done. Qed.

Section Fill.
Variables (w h : Z) (data0 : list Z) (sx sy r g b : Z).

Local Abbreviation T := (getPixel data0 w sx sy).
Local Abbreviation F := (opaque r g b).
Local Abbreviation N := (Z.to_nat (w * h)).
Local Abbreviation R := (in_region w h data0 sx sy).
Local Abbreviation Av := (avail w h data0 sx sy).
Local Abbreviation Inv := (fill_inv w h data0 sx sy r g b).

Lemma oob_false x y :
  ((x <? 0) || (x >=? w) || (y <? 0) || (y >=? h)) = false <-> inb w h (x, y).
Proof.
  rewrite !orb_false_iff, !Z.ltb_ge, !Z.geb_leb, !Z.leb_gt. unfold inb. simpl. lia.
Qed.

Lemma pix_index_ne p q :
  inb w h p -> inb w h q -> p <> q -> p.2 * w + p.1 <> q.2 * w + q.1.
Proof.
  destruct p as [px py], q as [qx qy]. unfold inb. simpl. intros Hp Hq Hne E.
  apply Hne. destruct (Z.lt_trichotomy py qy) as [Hl|[->|Hl]].
  - exfalso. nia.
  - f_equal; lia.
  - exfalso. nia.
Qed.

Lemma getPixel_paint_other d p q :
  inb w h p -> inb w h q -> p <> q ->
  getPixel (paint w r g b d q) w p.1 p.2 = getPixel d w p.1 p.2.
Proof.
  intros Hp Hq Hne. pose proof (pix_index_ne p q Hp Hq Hne) as Hd.
  unfold getPixel, paint, pix_index.
  set (a := p.2 * w + p.1) in *. set (a' := q.2 * w + q.1) in *.
  rewrite !read_write_other by lia. done.
Qed.

Lemma getPixel_paint_same d q :
  inb w h q -> length d = Z.to_nat (4 * w * h) ->
  getPixel (paint w r g b d q) w q.1 q.2 = F.
Proof.
  destruct q as [x y]. unfold inb. simpl. intros Hq Hl.
  assert (Hb : 0 <= (y * w + x) * 4 /\ (y * w + x) * 4 + 3 < 4 * w * h) by nia.
  unfold getPixel, paint, pix_index. simpl.
  set (a := y * w + x) in *.
  rewrite (read_write_other _ _ (a * 4) _) by lia.
  rewrite (read_write_other _ _ (a * 4) _) by lia.
  rewrite (read_write_other _ _ (a * 4) _) by lia.
  rewrite (read_write_other _ _ (a * 4 + 1) _) by lia.
  rewrite (read_write_other _ _ (a * 4 + 1) _) by lia.
  rewrite (read_write_other _ _ (a * 4 + 2) _) by lia.
  rewrite !read_write_same; rewrite ?length_write; try lia.
  all: done.
Qed.

Lemma length_paint d q : length (paint w r g b d q) = length d.
Proof. unfold paint. by rewrite !length_write. Qed.

Lemma elem_of_pixels p : inb w h p -> p ∈ pixels w h.
Proof.
  destruct p as [x y]. unfold inb. simpl. intros Hp.
  apply list_elem_of_fmap. exists (Z.to_nat (y * w + x)).
  rewrite Z2Nat.id by nia. split.
  - f_equal.
    + rewrite Z.add_comm, Z.mod_add by lia. rewrite Z.mod_small; lia.
    + rewrite Z.add_comm, Z.div_add by lia. rewrite Z.div_small; lia.
  - apply elem_of_seq. split; [lia|]. simpl. apply Z2Nat.inj_lt; nia.
Qed.

Lemma log_bound log :
  NoDup log -> (forall p, p ∈ log -> inb w h p) -> (length log <= N)%nat.
Proof.
  intros Hnd Hin. unfold pixels.
  replace N with (length (pixels w h)) by (unfold pixels; by rewrite length_fmap, length_seq).
  apply NoDup_incl_length; [by apply NoDup_ListNoDup|].
  intros p Hp. apply list_elem_of_In. apply elem_of_pixels, Hin. by apply list_elem_of_In.
Qed.

Lemma inv_log_bound st d log : Inv st d log -> (length log <= N)%nat.
Proof.
  intros (_ & _ & _ & Hnd & HR & _). apply log_bound; [done|].
  intros p Hp. apply HR in Hp. apply reach_end in Hp. tauto.
Qed.

Lemma inv_skip q st d log : Inv (q :: st) d log -> ~ Av log q -> Inv st d log.
Proof.
  intros (H1 & H2 & H3 & H4 & H5 & H6 & H7) Hq.
  repeat split; auto.
  - intros q' Hq'. apply H6. by right.
  - intros p Hp Hnp. destruct (H7 p Hp Hnp) as (q' & Hin & Hr).
    apply elem_of_cons in Hin as [->|Hin].
    + exfalso. apply Hq. by apply reach_start in Hr.
    + eauto.
Qed.

Hypothesis HTF : T <> F.
Hypothesis Hseed : inb w h (sx, sy).

Lemma inv_paint x y st d :
  forall log, Inv ((x, y) :: st) d log -> inb w h (x, y) -> getPixel d w x y = T ->
  length d = Z.to_nat (4 * w * h) ->
  Inv ((x, y - 1) :: (x, y + 1) :: (x - 1, y) :: (x + 1, y) :: st)
      (paint w r g b d (x, y)) (log ++ [(x, y)]).
Proof.
  intros log (H1 & H2 & H3 & H4 & H5 & H6 & H7) Hb Hm Hl.
  assert (Hnl : (x, y) ∉ log).
  { intros Hin. apply HTF. rewrite <- Hm. exact (H2 _ Hb Hin). }
  assert (H0 : getPixel data0 w x y = T) by (rewrite <- Hm; symmetry; exact (H3 _ Hb Hnl)).
  assert (HRq : R (x, y)).
  { destruct (H6 (x, y) ltac:(apply elem_of_cons; by left)) as [Hs|(p & Hp & Ha)].
    - rewrite Hs. apply reach_refl. split; [|done]. rewrite <- Hs. done.
    - eapply reach_step; [by apply H5|exact Ha|]. split; [done|exact H0]. }
  assert (Hlog : forall p, p ∈ log ++ [(x, y)] <-> p ∈ log \/ p = (x, y)).
  { intros p. rewrite elem_of_app, list_elem_of_singleton. tauto. }
  repeat split.
  - by rewrite length_paint.
  - intros p Hp Hin. destruct (decide (p = (x, y))) as [->|Hne].
    + by apply getPixel_paint_same.
    + rewrite getPixel_paint_other by done. apply H2; [done|].
      apply Hlog in Hin. tauto.
  - intros p Hp Hnin. rewrite Hlog in Hnin.
    rewrite getPixel_paint_other by (done || tauto). apply H3; tauto.
  - apply NoDup_app. repeat split; [done| |apply NoDup_singleton].
    intros p Hp Hp'. apply list_elem_of_singleton in Hp'. subst. done.
  - intros p Hp. apply Hlog in Hp as [Hp| ->]; auto.
  - intros q Hq. rewrite !elem_of_cons in Hq.
    destruct Hq as [->|[->|[->|[->|Hq]]]].
    1-4: right; exists (x, y); split; [apply Hlog; by right|unfold adj; simpl].
    1-4: repeat (first [left; f_equal; ring | right]); f_equal; ring.
    destruct (H6 q ltac:(apply elem_of_cons; by right)) as [Hs|(p & Hp & Ha)]; [by left|].
    right. exists p. split; [apply Hlog; by left|done].
  - intros p Hp Hnin. rewrite Hlog in Hnin.
    assert (Hnl' : p ∉ log) by tauto. assert (Hne : p <> (x, y)) by tauto.
    destruct (H7 p Hp Hnl') as (q' & Hq' & Hr).
    assert (Hmono : forall z, Av log z /\ z <> (x, y) -> Av (log ++ [(x, y)]) z).
    { intros z [[Hz1 Hz2] Hz3]. split; [done|]. rewrite Hlog. tauto. }
    destruct (reach_split _ (x, y) _ _ Hr Hne) as [Hr'|(n & Hn & Hr')].
    + apply elem_of_cons in Hq' as [->|Hq'].
      * exfalso. apply reach_start in Hr'. tauto.
      * exists q'. split; [rewrite !elem_of_cons; tauto|].
        eapply reach_mono; [exact Hmono|exact Hr'].
    + exists n. split; [|eapply reach_mono; [exact Hmono|exact Hr']].
      unfold adj in Hn. simpl in Hn. rewrite !elem_of_cons.
      destruct Hn as [->|[->|[->| ->]]]; intuition.
Qed.


Hypothesis Hlen0 : length data0 = Z.to_nat (4 * w * h).

Lemma fill_loop_correct fuel : forall st d log,
  Inv st d log -> (4 * (N - length log) + length st < fuel)%nat ->
  exists d' log', fill_loop fuel w h T r g b st d log = Some (d', log') /\ Inv [] d' log'.
Proof.
  induction fuel as [|fuel IH]; intros st d log HI Hm; [lia|].
  destruct st as [|[x y] st].
  - exists d, log. split; [done|exact HI].
  - cbn [fill_loop]. simpl in Hm.
    destruct ((x <? 0) || (x >=? w) || (y <? 0) || (y >=? h)) eqn:Eb.
    + apply IH; [|lia]. eapply inv_skip; [exact HI|].
      intros [[Hb _] _]. apply oob_false in Hb. congruence.
    + apply oob_false in Eb.
      destruct (colorsMatch (getPixel d w x y) T) eqn:Ec; cbn [negb].
      * apply colorsMatch_iff in Ec; [|done].
        assert (Hl : length d = Z.to_nat (4 * w * h)) by (destruct HI; congruence).
        pose proof (inv_paint x y st d log HI Eb Ec Hl) as HI'.
        pose proof (inv_log_bound _ _ _ HI') as Hb. rewrite length_app in Hb. simpl in Hb.
        destruct (IH _ _ _ HI') as (d' & log' & E & HI''); [rewrite length_app; simpl; lia|].
        exists d', log'. split; [exact E|exact HI''].
      * apply IH; [|lia]. eapply inv_skip; [exact HI|].
        intros [[_ Hc] Hn]. destruct HI as (_ & _ & H3 & _).
        assert (colorsMatch (getPixel d w x y) T = true) as Hc'.
        { apply colorsMatch_iff; [done|]. exact (eq_trans (H3 (x, y) Eb Hn) Hc). }
        congruence.
Qed.

Lemma fill_run_correct fillColor :
  hexToRgb fillColor = Some (r, g, b) ->
  exists d' log, floodFillRun w h data0 sx sy fillColor = Some (d', log) /\ Inv [] d' log.
Proof.
  intros Hhex. unfold floodFillRun. rewrite Hhex.
  destruct (colorsMatch T F) eqn:Ec.
  { apply colorsMatch_iff in Ec; [|done]. exfalso. apply HTF. exact Ec. }
  apply fill_loop_correct.
  - repeat split.
    + intros p _ Hin. set_solver.
    + constructor.
    + intros p Hin. set_solver.
    + intros q Hq. left. by apply list_elem_of_singleton in Hq.
    + intros p Hp _. exists (sx, sy). split; [set_solver|].
      eapply reach_mono; [|exact Hp]. intros z Hz. split; [exact Hz|set_solver].
  - destruct Hseed as [[? ?] [? ?]]. simpl in *.
    unfold fill_fuel. rewrite <- Z.mul_assoc, Z2Nat.inj_mul by nia. simpl. lia.
Qed.

Lemma inv_final d log : Inv [] d log -> forall p, p ∈ log <-> R p.
Proof.
  intros (_ & _ & _ & _ & H5 & _ & H7) p. split; [apply H5|].
  intros Hp. destruct (decide (p ∈ log)) as [|Hn]; [done|].
  destruct (H7 p Hp Hn) as (q & Hq & _). set_solver.
Qed.

End Fill.



Lemma floodFill_oob w h data sx sy c :
  ~ inb w h (sx, sy) -> floodFill w h data sx sy c = Some data.
Proof.
  intros Hs. unfold floodFill, floodFillRun.
  destruct (hexToRgb c) as [[[r g] b]|]; [|done].
  destruct colorsMatch; [done|].
  unfold fill_fuel. rewrite Nat.add_comm. cbn [Nat.add fill_loop].
  destruct ((sx <? 0) || (sx >=? w) || (sy <? 0) || (sy >=? h)) eqn:Eb; [done|].
  apply oob_false in Eb. contradiction.
Qed.

Lemma floodFill_match w h data sx sy c r g b :
  hexToRgb c = Some (r, g, b) -> getPixel data w sx sy = opaque r g b ->
  floodFill w h data sx sy c = Some data.
Proof.
  intros Hhex He. unfold floodFill, floodFillRun. rewrite Hhex, He.
  assert (Hm : colorsMatch (opaque r g b) (opaque r g b) = true) by (by apply colorsMatch_iff).
  by rewrite Hm.
Qed.

(** C1 *)
(** A fill seeded at an in-canvas pixel whose color differs from the opaque
    fill color terminates; the pixels it paints are painted once each and
    are exactly the 4-connected region of the seed's color around the seed;
    those pixels end up the opaque fill color and all others keep theirs. *)
Theorem floodFill_region (w h : Z) (data : list Z) (sx sy : Z) (fillColor : string)
    (r g b : Z) :
  length data = Z.to_nat (4 * w * h) -> inb w h (sx, sy) ->
  hexToRgb fillColor = Some (r, g, b) -> getPixel data w sx sy <> opaque r g b ->
  exists data' painted,
    floodFillRun w h data sx sy fillColor = Some (data', painted) /\
    floodFill w h data sx sy fillColor = Some data' /\
    NoDup painted /\
    (forall p, p ∈ painted <-> in_region w h data sx sy p) /\
    length data' = length data /\
    (forall p, inb w h p -> in_region w h data sx sy p ->
       getPixel data' w p.1 p.2 = opaque r g b) /\
    (forall p, inb w h p -> ~ in_region w h data sx sy p ->
       getPixel data' w p.1 p.2 = getPixel data w p.1 p.2).
Proof.
  intros Hl Hs Hhex Hne.
  destruct (fill_run_correct w h data sx sy r g b Hne Hs Hl fillColor Hhex)
    as (d' & log & E & HI).
  pose proof (inv_final w h data sx sy r g b Hne Hs Hl d' log HI) as Hiff.
  destruct HI as (H1 & H2 & H3 & H4 & _).
  exists d', log. split; [done|]. split; [unfold floodFill; by rewrite E|].
  split; [done|]. split; [done|]. split; [done|]. split.
  - intros p Hp Hr. apply H2; [done|]. by apply Hiff.
  - intros p Hp Hr. apply H3; [done|]. by rewrite Hiff.
Qed.

Lemma floodFill_region_witness :
  exists data' painted,
    floodFillRun 3 1 ex_canvas 0 0 ex_fill = Some (data', painted) /\
    floodFill 3 1 ex_canvas 0 0 ex_fill = Some data' /\
    NoDup painted /\
    (forall p, p ∈ painted <-> in_region 3 1 ex_canvas 0 0 p) /\
    length data' = length ex_canvas /\
    (forall p, inb 3 1 p -> in_region 3 1 ex_canvas 0 0 p ->
       getPixel data' 3 p.1 p.2 = opaque 255 0 0) /\
    (forall p, inb 3 1 p -> ~ in_region 3 1 ex_canvas 0 0 p ->
       getPixel data' 3 p.1 p.2 = getPixel ex_canvas 3 p.1 p.2).
Proof.
  apply (floodFill_region 3 1 ex_canvas 0 0 ex_fill 255 0 0).
  - reflexivity.
  - unfold inb. simpl. lia.
  - vm_compute. reflexivity.
  - vm_compute. discriminate.
Defined.

(** C7 *)
(** On a canvas of [4 * w * h] bytes, filling twice with the same
    arguments gives the raster of one fill, for every seed and color; when
    the seed pixel already has the opaque fill color the fill leaves the
    raster unchanged. *)
Theorem floodFill_idempotent (w h : Z) (data : list Z) (sx sy : Z) (fillColor : string) :
  length data = Z.to_nat (4 * w * h) ->
  (exists data1, floodFill w h data sx sy fillColor = Some data1 /\
                 floodFill w h data1 sx sy fillColor = Some data1) /\
  (forall r g b, hexToRgb fillColor = Some (r, g, b) ->
     getPixel data w sx sy = opaque r g b -> floodFill w h data sx sy fillColor = Some data).
Proof.
  intros Hl. split; [|intros r g b Hhex He; by eapply floodFill_match].
  destruct (hexToRgb fillColor) as [[[r g] b]|] eqn:Hhex.
  2: { exists data. unfold floodFill, floodFillRun. by rewrite Hhex. }
  destruct ((sx <? 0) || (sx >=? w) || (sy <? 0) || (sy >=? h)) eqn:Eb.
  2: { apply oob_false in Eb.
       destruct (decide (getPixel data w sx sy = opaque r g b)) as [He|Hne].
       - exists data. split; by eapply floodFill_match.
       - destruct (fill_run_correct w h data sx sy r g b Hne Eb Hl fillColor Hhex)
           as (d' & log & E & HI).
         pose proof (inv_final w h data sx sy r g b Hne Eb Hl d' log HI) as Hiff.
         exists d'. split; [unfold floodFill; by rewrite E|].
         eapply floodFill_match; [exact Hhex|].
         destruct HI as (_ & H2 & _). apply (H2 (sx, sy) Eb). apply Hiff.
         apply reach_refl. split; done. }
  exists data. split; apply floodFill_oob; intros Hb; apply oob_false in Hb; congruence.
Qed.

Lemma floodFill_idempotent_witness :
  (exists data1, floodFill 3 1 ex_canvas 0 0 ex_fill = Some data1 /\
                 floodFill 3 1 data1 0 0 ex_fill = Some data1) /\
  (forall r g b, hexToRgb ex_fill = Some (r, g, b) ->
     getPixel ex_canvas 3 0 0 = opaque r g b -> floodFill 3 1 ex_canvas 0 0 ex_fill = Some ex_canvas).
Proof. apply (floodFill_idempotent 3 1 ex_canvas 0 0 ex_fill). reflexivity. Defined.

(* ------------------------------------------------------------------ *)
(** ** Further properties of the code *)

(** *** StorageManager *)


(** X1 *)
(** With the store open, [saveLayer lid b] followed by [getLayer lid'] yields [b] when [lid' = lid] and the previously stored value otherwise; the frames store is untouched. *)
Theorem saveLayer_getLayer (s : Store) (lid lid' : string) (b : blob) :
  db s = true ->
  let s' := exec (saveLayer lid b) s in
  fst (getLayer lid' s') = Ok (if String.eqb lid' lid then Some b else layers_os s !! lid') /\
  frames_os s' = frames_os s.
Proof.
  intros H. unfold exec, saveLayer, getLayer. rewrite H. simpl. split; [|done].
  destruct (String.eqb_spec lid' lid) as [->|Hne].
  - by rewrite lookup_insert_eq.
  - by rewrite lookup_insert_ne by congruence.
Qed.

Lemma saveLayer_getLayer_witness :
  db (mkStore true ∅ []) = true /\
  fst (getLayer "a" (exec (saveLayer "a" [1; 2]) (mkStore true ∅ [])))
    = Ok (if String.eqb "a" "a" then Some [1; 2] else layers_os (mkStore true ∅ []) !! "a") /\
  frames_os (exec (saveLayer "a" [1; 2]) (mkStore true ∅ [])) = frames_os (mkStore true ∅ []).
Proof. split; [reflexivity|]. apply (saveLayer_getLayer (mkStore true ∅ []) "a" "a" [1; 2]). reflexivity. Defined.

(** X2 *)
(** With the store open, [deleteLayer] with an empty id is a no-op that succeeds; for a non-empty id, [getLayer] afterwards yields [null] for that id and the previous value for every other id; the frames store is untouched. *)
Theorem deleteLayer_getLayer (s : Store) (lid lid' : string) :
  db s = true ->
  (lid = "" -> deleteLayer lid s = (Ok tt, s)) /\
  (lid <> "" ->
   let s' := exec (deleteLayer lid) s in
   fst (getLayer lid' s') = Ok (if String.eqb lid' lid then None else layers_os s !! lid') /\
   frames_os s' = frames_os s).
Proof.
  intros H. unfold exec, deleteLayer, getLayer. rewrite H. split.
  - intros ->. reflexivity.
  - intros Hne. apply String.eqb_neq in Hne. rewrite Hne. simpl. split; [|done].
    apply String.eqb_neq in Hne.
    destruct (String.eqb_spec lid' lid) as [->|Hne'].
    + by rewrite lookup_delete_eq.
    + by rewrite lookup_delete_ne by congruence.
Qed.

Lemma deleteLayer_getLayer_witness :
  db (mkStore true {[ "a" := [1] ]} []) = true /\
  ((("a" = "") -> deleteLayer "a" (mkStore true {[ "a" := [1] ]} []) = (Ok tt, mkStore true {[ "a" := [1] ]} [])) /\
   ("a" <> "" ->
    fst (getLayer "a" (exec (deleteLayer "a") (mkStore true {[ "a" := [1] ]} [])))
      = Ok (if String.eqb "a" "a" then None else layers_os (mkStore true {[ "a" := [1] ]} []) !! "a") /\
    frames_os (exec (deleteLayer "a") (mkStore true {[ "a" := [1] ]} []))
      = frames_os (mkStore true {[ "a" := [1] ]} []))).
Proof. split; [reflexivity|]. apply (deleteLayer_getLayer _ "a" "a"). reflexivity. Defined.

(** X3 *)
(** With the store open, [copyLayer src dst] always succeeds: [dst] then holds the blob of [src] if there is one, and keeps its previous value (no error) when [src] is absent; other layer ids and the frames store are untouched. *)
Theorem copyLayer_getLayer (s : Store) (src dst : string) :
  db s = true ->
  let s' := exec (copyLayer src dst) s in
  fst (copyLayer src dst s) = Ok tt /\
  layers_os s' !! dst =
    match layers_os s !! src with Some b => Some b | None => layers_os s !! dst end /\
  (forall k, k <> dst -> layers_os s' !! k = layers_os s !! k) /\
  frames_os s' = frames_os s /\ db s' = true.
Proof.
  intros H s'. unfold s', exec, copyLayer, bindM, getLayer, saveLayer, ret. rewrite H.
  destruct (layers_os s !! src) as [b|] eqn:E; simpl; rewrite ?H; simpl;
    (split; [done|]).
  - split; [apply lookup_insert_eq|]. split; [|done].
    intros k Hk. by apply lookup_insert_ne.
  - done.
Qed.

Lemma copyLayer_getLayer_witness :
  let s := mkStore true {[ "a" := [1] ]} [] in
  db s = true /\
  (let s' := exec (copyLayer "a" "b") s in
   fst (copyLayer "a" "b" s) = Ok tt /\
   layers_os s' !! "b" =
     match layers_os s !! "a" with Some b => Some b | None => layers_os s !! "b" end /\
   (forall k, k <> "b" -> layers_os s' !! k = layers_os s !! k) /\
   frames_os s' = frames_os s /\ db s' = true).
Proof. split; [reflexivity|]. apply copyLayer_getLayer. reflexivity. Defined.

Lemma string_compare_refl (k : string) : String.compare k k = Eq.
Proof.
  induction k as [|c k IH]; [done|]. simpl. unfold Ascii.compare.
  by rewrite N.compare_refl.
Qed.

Lemma string_compare_lt_trans (a b c : string) :
  String.compare a b = Lt -> String.compare b c = Lt -> String.compare a c = Lt.
Proof.
  revert b c. induction a as [|x a IH]; intros [|y b] [|z c]; simpl; try done.
  unfold Ascii.compare.
  destruct (N.compare_spec (Ascii.N_of_ascii x) (Ascii.N_of_ascii y)) as [E1|E1|E1];
  destruct (N.compare_spec (Ascii.N_of_ascii y) (Ascii.N_of_ascii z)) as [E2|E2|E2];
  try discriminate; intros H1 H2;
  destruct (N.compare_spec (Ascii.N_of_ascii x) (Ascii.N_of_ascii z)) as [E3|E3|E3];
  try lia; eauto.
Qed.

Lemma elem_of_put_sorted (k : string) (v : Frame) l p :
  p ∈ put_sorted k v l -> p = (k, v) \/ p ∈ l.
Proof.
  induction l as [|[k' v'] l IH]; simpl.
  - rewrite list_elem_of_singleton. auto.
  - destruct (String.compare k k'); rewrite ?elem_of_cons; naive_solver.
Qed.

Lemma put_sorted_elem_of (k : string) (v : Frame) l : (k, v) ∈ put_sorted k v l.
Proof.
  induction l as [|[k' v'] l IH]; simpl; [by apply list_elem_of_singleton|].
  destruct (String.compare k k'); apply elem_of_cons; auto.
Qed.

Lemma put_sorted_other (k k' : string) (v v' : Frame) l :
  k' <> k -> (k', v') ∈ put_sorted k v l <-> (k', v') ∈ l.
Proof.
  intros Hne. split.
  - intros H. destruct (elem_of_put_sorted _ _ _ _ H) as [E|H']; [congruence|done].
  - induction l as [|[k0 v0] l IH]; simpl; [intros H; inversion H|].
    destruct (String.compare k k0) eqn:E; rewrite !elem_of_cons.
    + apply String.compare_eq_iff in E. subst k0. intros [E'|H]; [congruence|auto].
    + auto.
    + intros [E'|H]; auto.
Qed.

Lemma put_sorted_sorted (k : string) (v : Frame) l :
  keys_sorted l -> keys_sorted (put_sorted k v l).
Proof.
  induction l as [|[k' v'] l IH]; simpl; intros Hs.
  - split; [constructor|done].
  - destruct Hs as [Hf Hs]. destruct (String.compare k k') eqn:E; simpl.
    + apply String.compare_eq_iff in E. subst. done.
    + split; [|done]. constructor; [done|].
      eapply Forall_impl; [exact Hf|]. intros p Hp. eapply string_compare_lt_trans; eauto.
    + split; [|auto]. apply Forall_forall. intros p Hp.
      destruct (elem_of_put_sorted _ _ _ _ Hp) as [->|Hp'].
      * simpl. rewrite String.compare_antisym, E. done.
      * rewrite Forall_forall in Hf. by apply Hf.
Qed.

Lemma keys_sorted_unique (l : list (string * Frame)) k v1 v2 :
  keys_sorted l -> (k, v1) ∈ l -> (k, v2) ∈ l -> v1 = v2.
Proof.
  induction l as [|[k' v'] l IH]; simpl; intros Hs0 H1 H2; [inversion H1|].
  destruct Hs0 as [Hf Hs]. rewrite Forall_forall in Hf.
  apply elem_of_cons in H1, H2.
  destruct H1 as [E1|H1], H2 as [E2|H2]; simplify_eq; auto.
  - specialize (Hf _ H2). simpl in Hf. by rewrite string_compare_refl in Hf.
  - specialize (Hf _ H1). simpl in Hf. by rewrite string_compare_refl in Hf.
Qed.

(** X4 *)
(** With the store open and its keys in order, [saveFrame f] keeps the keys in order, stores [f] under its id, leaves exactly one record for that id (the new one), leaves the records of every other id as they were, and does not touch the layers store. *)
Theorem saveFrame_upsert (s : Store) (f : Frame) :
  db s = true -> keys_sorted (frames_os s) ->
  let s' := exec (saveFrame f) s in
  keys_sorted (frames_os s') /\
  (frame_id f, f) ∈ frames_os s' /\
  (forall v, (frame_id f, v) ∈ frames_os s' -> v = f) /\
  (forall k v, k <> frame_id f -> (k, v) ∈ frames_os s' <-> (k, v) ∈ frames_os s) /\
  layers_os s' = layers_os s.
Proof.
  intros H Hs s'. unfold s', exec, saveFrame. rewrite H. simpl.
  pose proof (put_sorted_sorted (frame_id f) f _ Hs) as Hs'.
  split; [done|]. split; [apply put_sorted_elem_of|]. split.
  - intros v Hv. eapply keys_sorted_unique; [exact Hs'|exact Hv|apply put_sorted_elem_of].
  - split; [|done]. intros k v Hk. by apply put_sorted_other.
Qed.

Lemma saveFrame_upsert_witness :
  let s := mkStore true ∅ [("f0", ex_frame0); ("f1", ex_frame1)] in
  let f := mkFrame "f1" 5 (mkFrameLayers "x" "y" "z") in
  db s = true /\ keys_sorted (frames_os s) /\
  (let s' := exec (saveFrame f) s in
   keys_sorted (frames_os s') /\
   (frame_id f, f) ∈ frames_os s' /\
   (forall v, (frame_id f, v) ∈ frames_os s' -> v = f) /\
   (forall k v, k <> frame_id f -> (k, v) ∈ frames_os s' <-> (k, v) ∈ frames_os s) /\
   layers_os s' = layers_os s).
Proof.
  assert (Hs : keys_sorted [("f0", ex_frame0); ("f1", ex_frame1)]).
  { simpl. repeat (constructor || split). }
  split; [reflexivity|]. split; [exact Hs|].
  apply saveFrame_upsert; [reflexivity|exact Hs].
Defined.

(** *** Frame operations *)

Lemma length_splice_insert {A} (pos : nat) (x : A) l :
  (pos <= length l)%nat -> length (splice_insert pos x l) = S (length l).
Proof.
  intros H. unfold splice_insert. rewrite length_app, length_take, length_cons, length_drop. lia.
Qed.

Lemma lookup_splice_insert {A} (pos : nat) (x : A) l :
  (pos <= length l)%nat -> splice_insert pos x l !! pos = Some x.
Proof.
  intros H. unfold splice_insert. rewrite lookup_app_r; rewrite length_take; [|lia].
  replace (pos - pos `min` length l)%nat with 0%nat by lia. done.
Qed.

Lemma lookup_reindex fs j f :
  fs !! j = Some f -> reindex fs !! j = Some (mkFrame (frame_id f) (Z.of_nat j) (layers f)).
Proof. intros H. unfold reindex. by rewrite list_lookup_imap, H. Qed.

Lemma length_reindex fs : length (reindex fs) = length fs.
Proof. apply length_imap. Qed.

Lemma frame_id_reindex fs : frame_id <$> reindex fs = frame_id <$> fs.
Proof.
  unfold reindex. apply list_eq. intros j. rewrite !list_lookup_fmap, list_lookup_imap.
  by destruct (fs !! j).
Qed.

Lemma layers_reindex fs : layers <$> reindex fs = layers <$> fs.
Proof.
  unfold reindex. apply list_eq. intros j. rewrite !list_lookup_fmap, list_lookup_imap.
  by destruct (fs !! j).
Qed.


Lemma cp_lookup (o : option blob) (d k : string) (m : gmap string blob) :
  (match o with Some b => <[d := b]> m | None => m end) !! k =
  if decide (k = d) then match o with Some b => Some b | None => m !! d end else m !! k.
Proof.
  destruct o as [b|]; case_decide; subst;
    rewrite ?lookup_insert_eq, ?lookup_insert_ne by congruence; done.
Qed.

(** X6 *)
(** With the store open, the source frame present and fresh, distinct layer ids, [duplicateFrame i] selects index [i + 1], puts the new frame there (the other frames keep their order), gives each new layer the source layer's blob when it has one, leaves every other layer id unchanged, saves the new record, and, through the effect that runs on the frame change, empties both history stacks. *)
Theorem duplicateFrame_copies (a : App) (i : Z) (fid bg la co : string) (src : Frame) :
  db (store a) = true ->
  frame_at (frames a) i = Some src ->
  NoDup [bg; la; co] ->
  Forall (fun d => d ∉ [background (layers src); lineart (layers src); color (layers src)])
         [bg; la; co] ->
  let nf := createNewFrame (fid, bg, la, co) (i + 1) in
  let lo := layers_os (store a) in
  let a' := exec (duplicateFrame i (fid, bg, la, co)) a in
  currentFrameIndex a' = i + 1 /\
  frame_at (frames a') (i + 1) = Some nf /\
  frame_id <$> frames a' = splice_insert (Z.to_nat (i + 1)) fid (frame_id <$> frames a) /\
  (forall t, layers_os (store a') !! layer_of (layers nf) t =
     match lo !! layer_of (layers src) t with
     | Some b => Some b
     | None => lo !! layer_of (layers nf) t
     end) /\
  (forall k, k ∉ [bg; la; co] -> layers_os (store a') !! k = lo !! k) /\
  (fid, nf) ∈ frames_os (store a') /\
  undoStack a' = [] /\ redoStack a' = [].
Proof.
  intros Hdb Hf Hnd Hfr nf lo a'.
  destruct a as [fs ci al U R [dbb lo0 fo]]; simpl in *; subst dbb.
  unfold a'. rewrite (exec_duplicateFrame_open _ _ _ _ _ _ _ _ _ _ _ _ _ Hf). cbv zeta.
  destruct (frame_at_Some _ _ _ Hf) as [Hi0 Hi].
  destruct src as [sid sidx [sb sl sc]]. simpl in *.
  rewrite !NoDup_cons, !elem_of_cons in Hnd.
  rewrite !Forall_cons, !elem_of_cons in Hfr.
  assert (Hn : bg <> la /\ bg <> co /\ la <> co) by (set_solver).
  assert (Hs : bg <> sb /\ bg <> sl /\ bg <> sc /\ la <> sb /\ la <> sl /\ la <> sc /\
               co <> sb /\ co <> sl /\ co <> sc) by set_solver.
  destruct Hn as (H1 & H2 & H3). destruct Hs as (H4 & H5 & H6 & H7 & H8 & H9 & H10 & H11 & H12).
  split; [done|]. split.
  { unfold frame_at. destruct (Z.ltb_spec (i + 1) 0); [lia|].
    rewrite (lookup_reindex _ _ nf); [unfold nf; simpl; do 2 f_equal; lia|].
    apply lookup_splice_insert. lia. }
  split.
  { rewrite frame_id_reindex. unfold splice_insert. by rewrite fmap_app, fmap_cons, fmap_take, fmap_drop. }
  split.
  { unfold lo. intros []; simpl; repeat first [rewrite cp_lookup | case_decide]; try congruence; reflexivity. }
  split.
  { unfold lo. intros k Hk. rewrite !elem_of_cons in Hk.
    assert (k <> bg /\ k <> la /\ k <> co) as (Hk1 & Hk2 & Hk3) by tauto.
    repeat first [rewrite cp_lookup | case_decide]; try congruence; reflexivity. }
  split; [|done]. apply put_sorted_elem_of.
Qed.

Lemma duplicateFrame_copies_witness :
  db (store ex_app_hist) = true /\
  frame_at (frames ex_app_hist) 0 = Some ex_frame0 /\
  NoDup ["b2"; "l2"; "c2"] /\
  Forall (fun d => d ∉ [background (layers ex_frame0); lineart (layers ex_frame0);
                         color (layers ex_frame0)]) ["b2"; "l2"; "c2"] /\
  (let nf := createNewFrame ("f2", "b2", "l2", "c2") (0 + 1) in
   let lo := layers_os (store ex_app_hist) in
   let a' := exec (duplicateFrame 0 ("f2", "b2", "l2", "c2")) ex_app_hist in
   currentFrameIndex a' = 0 + 1 /\
   frame_at (frames a') (0 + 1) = Some nf /\
   frame_id <$> frames a' = splice_insert (Z.to_nat (0 + 1)) "f2" (frame_id <$> frames ex_app_hist) /\
   (forall t, layers_os (store a') !! layer_of (layers nf) t =
      match lo !! layer_of (layers ex_frame0) t with
      | Some b => Some b
      | None => lo !! layer_of (layers nf) t
      end) /\
   (forall k, k ∉ ["b2"; "l2"; "c2"] -> layers_os (store a') !! k = lo !! k) /\
   ("f2", nf) ∈ frames_os (store a') /\
   undoStack a' = [] /\ redoStack a' = []).
Proof.
  assert (H1 : NoDup ["b2"; "l2"; "c2"]) by (apply (bool_decide_unpack _); vm_compute; exact I).
  assert (H2 : Forall (fun d => d ∉ [background (layers ex_frame0); lineart (layers ex_frame0);
                         color (layers ex_frame0)]) ["b2"; "l2"; "c2"])
    by (apply (bool_decide_unpack _); vm_compute; exact I).
  split; [reflexivity|]. split; [reflexivity|]. split; [exact H1|]. split; [exact H2|].
  apply duplicateFrame_copies; [reflexivity|reflexivity|exact H1|exact H2].
Defined.

(** X5 *)
(** With the store open, [addFrame] appends a new frame with index [frames.length] to the list, selects it, saves its record, and leaves the layers store unchanged; the effect that runs on the frame change empties both history stacks. *)
Theorem addFrame_appends (a : App) (ids : string * string * string * string) :
  db (store a) = true ->
  let nf := createNewFrame ids (Z.of_nat (length (frames a))) in
  let a' := exec (addFrame ids) a in
  frames a' = frames a ++ [nf] /\
  frame_at (frames a') (currentFrameIndex a') = Some nf /\
  (frame_id nf, nf) ∈ frames_os (store a') /\
  layers_os (store a') = layers_os (store a) /\
  undoStack a' = [] /\ redoStack a' = [].
Proof.
  intros Hdb nf a'. destruct a as [fs ci al U R [dbb lo fo]]; simpl in *; subst dbb.
  unfold a'. rewrite exec_addFrame. cbn. split; [done|]. split.
  - unfold frame_at. destruct (Z.ltb_spec (Z.of_nat (length fs)) 0); [lia|].
    rewrite Nat2Z.id, lookup_app_r, Nat.sub_diag by lia. done.
  - split; [apply put_sorted_elem_of|done].
Qed.

Lemma addFrame_appends_witness :
  db (store ex_app_hist) = true /\
  (let nf := createNewFrame ("f2", "b2", "l2", "c2") (Z.of_nat (length (frames ex_app_hist))) in
   let a' := exec (addFrame ("f2", "b2", "l2", "c2")) ex_app_hist in
   frames a' = frames ex_app_hist ++ [nf] /\
   frame_at (frames a') (currentFrameIndex a') = Some nf /\
   (frame_id nf, nf) ∈ frames_os (store a') /\
   layers_os (store a') = layers_os (store ex_app_hist) /\
   undoStack a' = [] /\ redoStack a' = []).
Proof. split; [reflexivity|]. apply addFrame_appends. reflexivity. Defined.

Lemma length_filter_index_aux {A} (l : list A) (i : Z) (k : nat) :
  length (filter (fun p => Z.of_nat (fst p) <> i) (zip (seq k (length l)) l)) =
  (length l - (if bool_decide ((Z.of_nat k <= i < Z.of_nat k + Z.of_nat (length l))%Z)
                then 1 else 0))%nat.
Proof.
  revert k. induction l as [|x l IH]; intros k; simpl.
  - case_bool_decide; reflexivity.
  - rewrite filter_cons. simpl. case_decide as Hd.
    + simpl. rewrite IH. do 2 case_bool_decide; lia.
    + rewrite IH. do 2 case_bool_decide; lia.
Qed.

Lemma length_filter_index {A} (l : list A) (i : Z) :
  0 <= i < Z.of_nat (length l) -> length (filter_index l i) = pred (length l).
Proof.
  intros H. unfold filter_index. rewrite length_map, length_filter_index_aux.
  case_bool_decide; lia.
Qed.

Lemma runFrameOp_selection (o : FrameOp) (a : App) :
  db (store a) = true ->
  0 <= currentFrameIndex a < Z.of_nat (length (frames a)) ->
  let a' := exec (runFrameOp o) a in
  db (store a') = true /\ 0 <= currentFrameIndex a' < Z.of_nat (length (frames a')).
Proof.
  intros Hdb Hci a'. unfold a'. clear a'.
  destruct a as [fs ci al U R [dbb lo fo]]; simpl in *; subst dbb.
  destruct o as [ids | i [[[fid bg] la] co] | i]; cbn [runFrameOp].
  - rewrite exec_addFrame. cbn. rewrite length_app. simpl. lia.
  - destruct (frame_at fs i) as [f|] eqn:Hf.
    + rewrite (exec_duplicateFrame_open _ _ _ _ _ _ _ _ _ _ _ _ _ Hf). cbn.
      destruct (frame_at_Some _ _ _ Hf) as [Hi0 Hi].
      rewrite length_reindex, length_splice_insert by lia. lia.
    + rewrite exec_duplicateFrame_none by done. cbn. lia.
  - destruct (decide (1 < length fs)%nat) as [Hl|Hl].
    + destruct (frame_at fs i) as [f|] eqn:Hf.
      * destruct (exec_deleteFrame_open fs ci al U R lo fo i f Hl Hf) as [lo' ->]. cbn.
        destruct (frame_at_Some _ _ _ Hf) as [Hi0 Hi].
        rewrite length_reindex, length_filter_index by lia.
        destruct (Z.geb_spec ci (Z.of_nat (pred (length fs)))); simpl; lia.
      * rewrite exec_deleteFrame_noop by (right; done). cbn. lia.
    + rewrite exec_deleteFrame_noop by (left; cbn; lia). cbn. lia.
Qed.

(** X8 *)
(** With the store open and a selected index in range, every sequence of add, duplicate and delete operations leaves the selected index pointing at an existing frame. *)
Theorem frameOps_selection_in_range (os : list FrameOp) (a : App) :
  db (store a) = true ->
  0 <= currentFrameIndex a < Z.of_nat (length (frames a)) ->
  let a' := runFrameOps os a in
  exists f, frame_at (frames a') (currentFrameIndex a') = Some f.
Proof.
  intros Hdb Hci a'. unfold a'. clear a'.
  assert (H : db (store (runFrameOps os a)) = true /\
              0 <= currentFrameIndex (runFrameOps os a) < Z.of_nat (length (frames (runFrameOps os a)))).
  { revert a Hdb Hci. induction os as [|o os IH]; intros a Hdb Hci; simpl; [done|].
    destruct (runFrameOp_selection o a Hdb Hci) as [H1 H2]. by apply IH. }
  destruct H as [_ [H1 H2]]. unfold frame_at. destruct (Z.ltb_spec (currentFrameIndex (runFrameOps os a)) 0); [lia|].
  apply lookup_lt_is_Some_2. lia.
Qed.

Lemma frameOps_selection_in_range_witness :
  db (store ex_app) = true /\
  0 <= currentFrameIndex ex_app < Z.of_nat (length (frames ex_app)) /\
  (let a' := runFrameOps [OpAdd ("f2", "b2", "l2", "c2"); OpDelete 2; OpDuplicate 0 ("f3", "b3", "l3", "c3")] ex_app in
   exists f, frame_at (frames a') (currentFrameIndex a') = Some f).
Proof.
  split; [reflexivity|]. split; [simpl; lia|].
  apply frameOps_selection_in_range; [reflexivity|simpl; lia].
Defined.

(** X7 *)
(** With the store not open, [addFrame] still appends the frame to the list but does not select it or save anything, [duplicateFrame] changes nothing, and [deleteFrame] removes the frame from the list but leaves the selected index and the store unchanged; after an add or a delete the effect that runs on the frame change empties both history stacks. *)
Theorem frameOps_closed_store (a : App) (ids : string * string * string * string) (i : Z) :
  db (store a) = false ->
  exec (addFrame ids) a =
    mkApp (frames a ++ [createNewFrame ids (Z.of_nat (length (frames a)))])
          (currentFrameIndex a) (activeLayer a) [] [] (store a) /\
  exec (duplicateFrame i ids) a = a /\
  ((1 < length (frames a))%nat -> is_Some (frame_at (frames a) i) ->
   exec (deleteFrame i) a =
     mkApp (reindex (filter_index (frames a) i))
           (currentFrameIndex a) (activeLayer a) [] [] (store a)).
Proof.
  intros Hdb. destruct a as [fs ci al U R [dbb lo fo]]; simpl in *; subst dbb.
  split; [apply exec_addFrame|]. split; [apply exec_duplicateFrame_closed|].
  intros Hl [f Hf]. by apply exec_deleteFrame_closed with f.
Qed.

Lemma frameOps_closed_store_witness :
  let a := mkApp [ex_frame0; ex_frame1] 1 Lineart [] [] (mkStore false ∅ []) in
  db (store a) = false /\
  (exec (addFrame ("f2", "b2", "l2", "c2")) a =
    mkApp (frames a ++ [createNewFrame ("f2", "b2", "l2", "c2") (Z.of_nat (length (frames a)))])
          (currentFrameIndex a) (activeLayer a) [] [] (store a) /\
   exec (duplicateFrame 1 ("f2", "b2", "l2", "c2")) a = a /\
   ((1 < length (frames a))%nat -> is_Some (frame_at (frames a) 1) ->
    exec (deleteFrame 1) a =
      mkApp (reindex (filter_index (frames a) 1))
            (currentFrameIndex a) (activeLayer a) [] [] (store a))).
Proof. split; [reflexivity|]. apply frameOps_closed_store. reflexivity. Defined.

(** *** Strokes and history *)

Lemma length_removelast {A} (l : list A) : length (removelast l) = pred (length l).
Proof.
  destruct l as [|x l]; [done|].
  rewrite (app_removelast_last x (l := x :: l)) at 2 by done.
  rewrite length_app. simpl. lia.
Qed.

Lemma length_slice_last19_le {A} (l : list A) : (length (slice_last19 l) <= 19)%nat.
Proof. unfold slice_last19. rewrite length_drop. lia. Qed.

Lemma mutations_open_bounded bs fs ci al U R lo fo f :
  frame_at fs ci = Some f -> (length U <= 20)%nat -> R = [] ->
  exists U' lo',
    mutations bs (mkApp fs ci al U R (mkStore true lo fo)) =
    mkApp fs ci al U' [] (mkStore true lo' fo) /\ (length U' <= 20)%nat.
Proof.
  revert U R lo. induction bs as [|b bs IH]; intros U R lo Hf HU HR; simpl.
  - subst R. eauto.
  - rewrite (exec_mutation_open _ _ _ _ _ _ _ f) by done.
    apply IH; [done| |done]. rewrite length_app. simpl.
    pose proof (length_slice_last19_le U). lia.
Qed.

(** X9 *)
(** With the store open and the selected frame present, after one or more strokes the undo stack holds at most 20 entries, the redo stack is empty, and the frame list, the selected index and the frames store are unchanged. *)
Theorem strokes_bound_history (bs : list (option blob)) (a : App) (f : Frame) :
  db (store a) = true ->
  frame_at (frames a) (currentFrameIndex a) = Some f ->
  bs <> [] ->
  let a' := mutations bs a in
  (length (undoStack a') <= 20)%nat /\ redoStack a' = [] /\
  frames a' = frames a /\ currentFrameIndex a' = currentFrameIndex a /\
  frames_os (store a') = frames_os (store a).
Proof.
  intros Hdb Hf Hbs a'. unfold a'. clear a'.
  destruct a as [fs ci al U R [dbb lo fo]]; simpl in *; subst dbb.
  destruct bs as [|b bs]; [done|]. simpl.
  rewrite (exec_mutation_open _ _ _ _ _ _ _ f) by done.
  destruct (mutations_open_bounded bs fs ci al (slice_last19 U ++ [lo !! layer_of (layers f) al]) []
              (match b with Some b0 => <[layer_of (layers f) al:=b0]> lo | None => lo end) fo f)
    as (U' & lo' & -> & HU); [done| |done|].
  - rewrite length_app. simpl. pose proof (length_slice_last19_le U). lia.
  - simpl. auto.
Qed.

Lemma strokes_bound_history_witness :
  db (store ex_app) = true /\
  frame_at (frames ex_app) (currentFrameIndex ex_app) = Some ex_frame0 /\
  [Some [1]; None] <> [] /\
  (let a' := mutations [Some [1]; None] ex_app in
   (length (undoStack a') <= 20)%nat /\ redoStack a' = [] /\
   frames a' = frames ex_app /\ currentFrameIndex a' = currentFrameIndex ex_app /\
   frames_os (store a') = frames_os (store ex_app)).
Proof.
  split; [reflexivity|]. split; [reflexivity|]. split; [discriminate|].
  apply (strokes_bound_history _ _ ex_frame0); [reflexivity|reflexivity|discriminate].
Defined.

(** X10 *)
(** [undo] and [redo] move one entry between the two stacks or change nothing: the total number of entries in the undo and redo stacks is preserved. *)
Theorem undo_redo_conserve_history (a : App) :
  (length (undoStack (exec undo a)) + length (redoStack (exec undo a)) =
   length (undoStack a) + length (redoStack a))%nat /\
  (length (undoStack (exec redo a)) + length (redoStack (exec redo a)) =
   length (undoStack a) + length (redoStack a))%nat.
Proof.
  destruct (frame_at (frames a) (currentFrameIndex a)) as [f|] eqn:Hf;
    [|rewrite exec_undo_closed, exec_redo_closed by auto; done].
  destruct a as [fs ci al U R [dbb lo fo]]; simpl in *.
  destruct dbb; [|rewrite exec_undo_closed, exec_redo_closed by auto; done].
  split.
  - destruct (decide (U = [])) as [->|HU].
    + reflexivity.
    + rewrite (exec_undo_open _ _ _ _ _ _ _ f) by done. simpl.
      rewrite length_removelast, length_app. simpl.
      destruct U; [done|]. simpl. lia.
  - destruct (decide (R = [])) as [->|HR].
    + by rewrite exec_redo_empty.
    + rewrite (exec_redo_open _ _ _ _ _ _ _ f) by done. simpl.
      rewrite length_removelast, length_app. simpl.
      destruct R; [done|]. simpl. lia.
Qed.

(** X11 *)
(** With the store open, the selected frame present and a non-empty active layer id, [undo] right after a stroke restores the layer's blob from before the stroke, puts the blob after the stroke on the redo stack, and leaves the undo stack as it was before the stroke, cut to its last 19 entries. *)
Theorem undo_after_stroke (a : App) (f : Frame) (nb : option blob) :
  db (store a) = true ->
  frame_at (frames a) (currentFrameIndex a) = Some f ->
  layer_of (layers f) (activeLayer a) <> "" ->
  let a1 := exec (mutation nb) a in
  let a2 := exec undo a1 in
  active_blob a2 = active_blob a /\
  redoStack a2 = [active_blob a1] /\
  undoStack a2 = slice_last19 (undoStack a).
Proof.
  intros Hdb Hf Hne a1 a2. unfold a2, a1. clear a1 a2.
  destruct a as [fs ci al U R [dbb lo fo]]; simpl in *; subst dbb.
  rewrite (exec_mutation_open _ _ _ _ _ _ _ f) by done.
  rewrite (exec_undo_open _ _ _ _ _ _ _ f); [|destruct (slice_last19 U); discriminate|done].
  unfold active_blob. simpl. rewrite Hf.
  rewrite List.last_last, removelast_last.
  split; [|done].
  destruct (lo !! layer_of (layers f) al) as [b0|] eqn:E.
  - apply restore_layer_Some.
  - unfold restore_layer. apply String.eqb_neq in Hne. rewrite Hne.
    apply lookup_delete_eq.
Qed.

Lemma undo_after_stroke_witness :
  db (store ex_app) = true /\
  frame_at (frames ex_app) (currentFrameIndex ex_app) = Some ex_frame0 /\
  layer_of (layers ex_frame0) (activeLayer ex_app) <> "" /\
  (let a1 := exec (mutation (Some [5])) ex_app in
   let a2 := exec undo a1 in
   active_blob a2 = active_blob ex_app /\
   redoStack a2 = [active_blob a1] /\
   undoStack a2 = slice_last19 (undoStack ex_app)).
Proof.
  split; [reflexivity|]. split; [reflexivity|]. split; [discriminate|].
  apply (undo_after_stroke _ ex_frame0); [reflexivity|reflexivity|discriminate].
Defined.

(** *** Playback *)

Lemma Zdigits2_log2 m : 0 < m -> Zdigits2 m = Z.log2 m + 1.
Proof.
  intros Hm. destruct m as [|p|p]; try lia. simpl.
  assert (H : forall q, digits2_pos q = Pos.size q) by (induction q; simpl; congruence).
  rewrite H. destruct p; simpl; rewrite ?Pos2Z.inj_succ; lia.
Qed.

Lemma Zdigits2_nonneg m : 0 <= m -> 0 <= Zdigits2 m.
Proof. destruct m; simpl; lia. Qed.

Lemma Zdigits2_le m t : 0 <= m -> 0 <= t -> (Zdigits2 m <= t <-> m < 2 ^ t).
Proof.
  intros Hm Ht. destruct (Z.eq_dec m 0) as [->|Hm0].
  - simpl. split; [intros; apply Z.pow_pos_nonneg; lia|lia].
  - rewrite Zdigits2_log2 by lia. rewrite (Z.log2_lt_pow2 m t) by lia. lia.
Qed.

Lemma Zdigits2_lower m : 0 < m -> 2 ^ (Zdigits2 m - 1) <= m.
Proof.
  intros Hm. rewrite Zdigits2_log2 by lia. replace (Z.log2 m + 1 - 1) with (Z.log2 m) by lia.
  apply Z.log2_spec. lia.
Qed.

Lemma Zdigits2_upper m : 0 <= m -> m < 2 ^ (Zdigits2 m).
Proof. intros Hm. apply Zdigits2_le; [lia|apply Zdigits2_nonneg; lia|lia]. Qed.

Lemma Zdigits2_mono a b : 0 <= a <= b -> Zdigits2 a <= Zdigits2 b.
Proof.
  intros H. apply Zdigits2_le; [lia|apply Zdigits2_nonneg; lia|].
  pose proof (Zdigits2_upper b). lia.
Qed.

Lemma shr_1_m mrs : 0 <= shr_m mrs -> shr_m (shr_1 mrs) = shr_m mrs / 2 /\ 0 <= shr_m (shr_1 mrs).
Proof.
  destruct mrs as [[|[p|p|]|p] r s]; simpl; intros H; try lia;
    rewrite <- Z.div2_div; simpl; lia.
Qed.

Lemma iter_shr_1 (p : positive) : forall mrs, 0 <= shr_m mrs ->
  shr_m (SpecFloat.iter_pos shr_1 p mrs) = shr_m mrs / 2 ^ Zpos p /\ 0 <= shr_m (SpecFloat.iter_pos shr_1 p mrs).
Proof.
  induction p as [p IH|p IH|]; intros mrs H; simpl.
  - destruct (shr_1_m mrs H) as [E1 N1].
    destruct (IH _ N1) as [E2 N2]. destruct (IH _ N2) as [E3 N3].
    split; [|exact N3]. rewrite E3, E2, E1.
    rewrite !Z.div_div by (try apply Z.pow_pos_nonneg; lia).
    f_equal. replace (Zpos p~1) with (1 + Zpos p + Zpos p) by lia.
    rewrite !Z.pow_add_r by lia. ring.
  - destruct (IH _ H) as [E2 N2]. destruct (IH _ N2) as [E3 N3].
    split; [|exact N3]. rewrite E3, E2.
    rewrite !Z.div_div by (try apply Z.pow_pos_nonneg; lia).
    f_equal. replace (Zpos p~0) with (Zpos p + Zpos p) by lia.
    rewrite !Z.pow_add_r by lia. ring.
  - apply shr_1_m. done.
Qed.

Lemma fexp_eq z : fexp dprec demax z = Z.max (z - 53) (-1074).
Proof. reflexivity. Qed.

Lemma shr_fexp_spec m e l mrs' e' : 0 <= m ->
  shr_fexp dprec demax m e l = (mrs', e') ->
  e' = Z.max e (Z.max (Zdigits2 m + e - 53) (-1074)) /\
  shr_m mrs' = m / 2 ^ (e' - e) /\ 0 <= shr_m mrs'.
Proof.
  intros Hm. unfold shr_fexp, shr. rewrite fexp_eq.
  assert (Hr : shr_m (shr_record_of_loc m l) = m) by (destruct l as [|[]]; reflexivity).
  destruct (Z.max (Zdigits2 m + e - 53) (-1074) - e) eqn:E; intros [= <- <-].
  - rewrite Hr, Z.sub_diag, Z.pow_0_r, Z.div_1_r. lia.
  - destruct (iter_shr_1 p (shr_record_of_loc m l)) as [E1 N1]; [lia|].
    rewrite E1, Hr. replace (e + Zpos p - e) with (Zpos p) by lia.
    split; [lia|]. split; [done|]. apply Z.div_pos; [lia|]. apply Z.pow_pos_nonneg; lia.
  - rewrite Hr, Z.sub_diag, Z.pow_0_r, Z.div_1_r. lia.
Qed.

Lemma rne_bounds mx lx : mx <= round_nearest_even mx lx <= mx + 1.
Proof. destruct lx as [|[]]; simpl; try destruct (Z.even mx); lia. Qed.

Lemma div_pow2_lt a u k : 0 <= a < 2 ^ u -> 0 <= k -> a / 2 ^ k < 2 ^ (Z.max (u - k) 0).
Proof.
  intros Ha Hk. assert (Hk2 : 0 < 2 ^ k) by (apply Z.pow_pos_nonneg; lia).
  destruct (Z.le_gt_cases k u) as [Hu|Hu].
  - apply Z.div_lt_upper_bound; [lia|].
    rewrite <- Z.pow_add_r by lia. replace (k + Z.max (u - k) 0) with u by lia. lia.
  - rewrite Z.div_small; [rewrite Z.max_r by lia; simpl; lia|].
    split; [lia|]. apply (Z.lt_le_trans _ (2 ^ u)); [lia|]. apply Z.pow_le_mono_r; lia.
Qed.

Lemma round_aux_spec sx mx ex lx : 0 <= mx -> ex <= 971 -> Zdigits2 mx + ex <= 1023 ->
  match binary_round_aux dprec demax sx mx ex lx with
  | S754_zero s => s = sx
  | S754_finite s m e => s = sx /\ Zdigits2 (Zpos m) <= 53 /\ -1074 <= e <= 971 /\
                          Zdigits2 (Zpos m) + e <= Z.max (Zdigits2 mx + ex) (-1074) + 1
  | _ => False
  end.
Proof.
  intros Hm Hex HD. unfold binary_round_aux.
  destruct (shr_fexp dprec demax mx ex lx) as [mrs1 e1] eqn:E1.
  destruct (shr_fexp_spec _ _ _ _ _ Hm E1) as (He1 & Hm1 & N1).
  pose proof (rne_bounds (shr_m mrs1) (loc_of_shr_record mrs1)) as Hr.
  set (mr := round_nearest_even (shr_m mrs1) (loc_of_shr_record mrs1)) in *.
  destruct (shr_fexp dprec demax mr e1 loc_Exact) as [mrs2 e2] eqn:E2.
  destruct (shr_fexp_spec mr e1 loc_Exact mrs2 e2 ltac:(lia) E2) as (He2 & Hm2 & N2).
  pose proof (Zdigits2_nonneg mx Hm). pose proof (Zdigits2_upper mx Hm).
  set (D := Zdigits2 mx) in *.
  assert (Hmr : mr < 2 ^ (Z.max (D + ex - e1) 0 + 1)).
  { pose proof (div_pow2_lt mx D (e1 - ex) ltac:(lia) ltac:(lia)) as Hq.
    rewrite <- Hm1 in Hq. replace (D - (e1 - ex)) with (D + ex - e1) in Hq by lia.
    rewrite Z.pow_add_r, Z.pow_1_r by lia. lia. }
  assert (HD2 : Zdigits2 mr <= Z.max (D + ex - e1) 0 + 1)
    by (apply Zdigits2_le; lia).
  pose proof (Zdigits2_nonneg mr ltac:(lia)). pose proof (Zdigits2_upper mr ltac:(lia)).
  set (D2 := Zdigits2 mr) in *.
  pose proof (div_pow2_lt mr D2 (e2 - e1) ltac:(lia) ltac:(lia)) as Hq2.
  rewrite <- Hm2 in Hq2.
  destruct (shr_m mrs2) as [|p|p] eqn:Em2; [reflexivity| |lia].
  assert (He2b : e2 <= 971) by lia.
  replace (Z.leb e2 (Z.sub demax dprec)) with true by (symmetry; apply Z.leb_le; unfold demax, dprec; lia).
  assert (Hp : Zdigits2 (Zpos p) <= D2 - (e2 - e1)).
  { destruct (Z.le_gt_cases (D2 - (e2 - e1)) 0) as [Hz|Hz].
    - rewrite Z.max_r in Hq2 by lia. simpl in Hq2. lia.
    - rewrite Z.max_l in Hq2 by lia. apply Zdigits2_le; lia. }
  cbv beta iota. split; [reflexivity|lia].
Qed.

Ltac fold_digits :=
  repeat match goal with
  | |- context [Zpos (digits2_pos ?m)] => change (Zpos (digits2_pos m)) with (Zdigits2 (Zpos m))
  | H : context [Zpos (digits2_pos ?m)] |- _ =>
      change (Zpos (digits2_pos m)) with (Zdigits2 (Zpos m)) in H
  end.

Lemma rounded_ok_mono sx b b' x : b <= b' -> rounded_ok sx b x -> rounded_ok sx b' x.
Proof. destruct x; simpl; intuition lia. Qed.

Lemma round_aux_ok sx mx ex lx : 0 <= mx -> ex <= 971 -> Zdigits2 mx + ex <= 1023 ->
  rounded_ok sx (Z.max (Zdigits2 mx + ex) (-1074) + 1) (binary_round_aux dprec demax sx mx ex lx).
Proof. intros. pose proof (round_aux_spec sx mx ex lx). unfold rounded_ok. tauto. Qed.

Lemma pos_iter_xO mx d : Zpos (Pos.iter xO mx d) = Zpos mx * 2 ^ Zpos d.
Proof.
  induction d as [|d IH] using Pos.peano_ind; [simpl; lia|].
  rewrite Pos.iter_succ, Pos2Z.inj_xO, IH, Pos2Z.inj_succ, Z.pow_succ_r by lia. ring.
Qed.

Lemma Zdigits2_mul_pow2 m k : 0 < m -> 0 <= k -> Zdigits2 (m * 2 ^ k) = Zdigits2 m + k.
Proof.
  intros Hm Hk. assert (0 < 2 ^ k) by (apply Z.pow_pos_nonneg; lia).
  rewrite !Zdigits2_log2 by nia. rewrite Z.log2_mul_pow2 by lia. lia.
Qed.

Lemma shl_align_fst mx ex ez : ez <= ex ->
  Zpos (fst (shl_align mx ex ez)) = Zpos mx * 2 ^ (ex - ez).
Proof.
  intros H. unfold shl_align. destruct (ez - ex) eqn:E; simpl.
  - replace (ex - ez) with 0 by lia. lia.
  - lia.
  - rewrite pos_iter_xO. f_equal. f_equal. lia.
Qed.

Lemma round_ok sx mx ex : Zdigits2 (Zpos mx) + ex <= 1023 ->
  rounded_ok sx (Z.max (Zdigits2 (Zpos mx) + ex) (-1074) + 1) (binary_round dprec demax sx mx ex).
Proof.
  intros HD. unfold binary_round.
  change (Zpos (digits2_pos mx)) with (Zdigits2 (Zpos mx)). rewrite fexp_eq.
  set (ez := Z.max (Zdigits2 (Zpos mx) + ex - 53) (-1074)).
  destruct (Z.le_gt_cases ex ez) as [Hle|Hgt].
  - unfold shl_align. destruct (ez - ex) eqn:E; [| |lia]; apply round_aux_ok; lia.
  - pose proof (shl_align_fst mx ex ez ltac:(lia)) as Hf.
    destruct (shl_align mx ex ez) as [mz ez'] eqn:E.
    assert (ez' = ez) as ->.
    { revert E. unfold shl_align. destruct (ez - ex) eqn:E'; try lia. congruence. }
    simpl in Hf. pose proof (Zdigits2_nonneg (Zpos mx)).
    pose proof (Zdigits2_mul_pow2 (Zpos mx) (ex - ez) ltac:(lia) ltac:(lia)) as Hd.
    rewrite <- Hf in Hd.
    replace (Zdigits2 (Zpos mx) + ex) with (Zdigits2 (Zpos mz) + ez) by lia.
    apply round_aux_ok; lia.
Qed.

Lemma Zdigits2_abs z : Zdigits2 z = Zdigits2 (Z.abs z).
Proof. destruct z; reflexivity. Qed.

Lemma normalize_ok z e sz : Zdigits2 z + e <= 1023 ->
  rounded_ok (sign_of z sz) (Z.max (Zdigits2 z + e) (-1074) + 1) (binary_normalize dprec demax z e sz).
Proof.
  intros H. destruct z as [|p|p]; simpl.
  - reflexivity.
  - apply round_ok. exact H.
  - apply round_ok. exact H.
Qed.

Lemma rounded_ok_dwf sx b x : rounded_ok sx b x -> dwf x /\ d_below b x.
Proof. destruct x; simpl; intuition. Qed.

Lemma rounded_ok_false b x : rounded_ok false b x -> dwf x /\ d_nonneg x /\ d_below b x.
Proof. destruct x as [s|s| |s m e]; simpl; intuition; subst; simpl; done. Qed.

Lemma shl_bound m e ez K : ez <= e -> Zdigits2 (Zpos m) + e <= K ->
  0 < Zpos (fst (shl_align m e ez)) < 2 ^ (K - ez).
Proof.
  intros He HK. rewrite shl_align_fst by done.
  assert (0 < 2 ^ (e - ez)) by (apply Z.pow_pos_nonneg; lia).
  pose proof (Zdigits2_upper (Zpos m * 2 ^ (e - ez))) as Hu.
  rewrite Zdigits2_mul_pow2 in Hu by lia.
  split; [nia|]. eapply Z.lt_le_trans; [apply Hu; nia|]. apply Z.pow_le_mono_r; lia.
Qed.

Lemma d_sub_ok K a b : -1074 <= K <= 1021 -> dwf a -> dwf b -> d_below K a -> d_below K b ->
  dwf (d_sub a b) /\ d_below (K + 2) (d_sub a b).
Proof.
  intros HK Ha Hb Ka Kb.
  destruct a as [sa|sa| |sa ma ea]; destruct b as [sb|sb| |sb mb eb]; simpl in *; try contradiction.
  - destruct sa, sb; simpl; done.
  - unfold d_sub. simpl. split; [done|lia].
  - unfold d_sub. simpl. split; [done|lia].
  - unfold d_sub, SFsub.
    set (ez := Z.min ea eb).
    pose proof (shl_bound ma ea ez K ltac:(lia) Ka) as HA.
    pose proof (shl_bound mb eb ez K ltac:(lia) Kb) as HB.
    set (A := Zpos (fst (shl_align ma ea ez))) in *.
    set (B := Zpos (fst (shl_align mb eb ez))) in *.
    assert (HKz : 0 <= K - ez) by (pose proof (Zdigits2_nonneg (Zpos ma)); lia).
    assert (Hz : Zdigits2 (cond_Zopp sa A - cond_Zopp sb B) <= K - ez + 1).
    { rewrite Zdigits2_abs. apply Zdigits2_le; [lia|lia|].
      rewrite Z.pow_add_r, Z.pow_1_r by lia. destruct sa, sb; simpl; lia. }
    pose proof (normalize_ok (cond_Zopp sa A - cond_Zopp sb B) ez false ltac:(lia)) as H.
    eapply rounded_ok_dwf. eapply rounded_ok_mono; [|exact H]. lia.
Qed.

Lemma d_add_ok K a b : -1074 <= K <= 1021 -> dwf a -> dwf b -> d_nonneg a -> d_nonneg b ->
  d_below K a -> d_below K b ->
  dwf (d_add a b) /\ d_nonneg (d_add a b) /\ d_below (K + 2) (d_add a b).
Proof.
  intros HK Ha Hb Na Nb Ka Kb.
  destruct a as [sa|sa| |sa ma ea]; destruct b as [sb|sb| |sb mb eb]; simpl in *; try contradiction.
  - destruct sa, sb; simpl; done.
  - unfold d_add. simpl. destruct sb; [contradiction|]. simpl. split; [done|]. split; [done|lia].
  - unfold d_add. simpl. destruct sa; [contradiction|]. simpl. split; [done|]. split; [done|lia].
  - destruct sa; [contradiction|]. destruct sb; [contradiction|].
    unfold d_add, SFadd.
    set (ez := Z.min ea eb).
    pose proof (shl_bound ma ea ez K ltac:(lia) Ka) as HA.
    pose proof (shl_bound mb eb ez K ltac:(lia) Kb) as HB.
    set (A := Zpos (fst (shl_align ma ea ez))) in *.
    set (B := Zpos (fst (shl_align mb eb ez))) in *.
    assert (HKz : 0 <= K - ez) by (pose proof (Zdigits2_nonneg (Zpos ma)); lia).
    simpl cond_Zopp.
    assert (Hz : Zdigits2 (A + B) <= K - ez + 1).
    { apply Zdigits2_le; [lia|lia|]. rewrite Z.pow_add_r, Z.pow_1_r by lia. lia. }
    pose proof (normalize_ok (A + B) ez false ltac:(lia)) as H.
    replace (sign_of (A + B) false) with false in H
      by (destruct (A + B) eqn:E; simpl; lia).
    apply rounded_ok_false. eapply rounded_ok_mono; [|exact H]. lia.
Qed.

Lemma d_div_ok K ma ea mb eb : -1074 <= K <= 1021 ->
  dwf (S754_finite false ma ea) -> dwf (S754_finite false mb eb) ->
  Zdigits2 (Zpos ma) + ea <= K -> 1 <= Zdigits2 (Zpos mb) + eb ->
  let q := d_div (S754_finite false ma ea) (S754_finite false mb eb) in
  dwf q /\ d_nonneg q /\ d_below (K + 1) q.
Proof.
  intros HK Ha Hb Ka Lb q. unfold q, d_div, SFdiv. clear q.
  destruct (SFdiv_core_binary dprec demax (Zpos ma) ea (Zpos mb) eb) as [[q e'] l] eqn:E.
  unfold SFdiv_core_binary in E. rewrite fexp_eq in E.
  set (d1 := Zdigits2 (Zpos ma)) in *. set (d2 := Zdigits2 (Zpos mb)) in *.
  simpl in Ha, Hb.
  set (e0 := Z.min (Z.max (d1 + ea - (d2 + eb) - 53) (-1074)) (ea - eb)) in E.
  assert (Hm' : exists m', (match ea - eb - e0 with Zpos _ => Z.shiftl (Zpos ma) (ea - eb - e0)
                            | Z0 => Zpos ma | Zneg _ => 0 end) = m' /\ m' = Zpos ma * 2 ^ (ea - eb - e0)).
  { assert (He0 : e0 <= ea - eb) by (unfold e0; lia).
    eexists; split; [reflexivity|]. destruct (ea - eb - e0) eqn:Es.
    - simpl. lia.
    - rewrite Z.shiftl_mul_pow2 by lia. reflexivity.
    - lia. }
  destruct Hm' as [m' [Em' Hm']]. rewrite Em' in E.
  destruct (Z.div_eucl m' (Zpos mb)) as [q0 r0] eqn:Ed. injection E as <- <- <-.
  assert (Hq0 : q0 = m' / Zpos mb) by (unfold Z.div; rewrite Ed; reflexivity).
  assert (Hs : 0 <= ea - eb - e0) by (unfold e0; lia).
  assert (He0b : e0 <= Z.max (d1 + ea - (d2 + eb) - 53) (-1074)) by (unfold e0; lia).
  clearbody e0.
  assert (Hp : 0 < 2 ^ (ea - eb - e0)) by (apply Z.pow_pos_nonneg; lia).
  pose proof (Zdigits2_nonneg (Zpos ma)). pose proof (Zdigits2_nonneg (Zpos mb)).
  assert (Hm'u : m' < 2 ^ (d1 + (ea - eb - e0))).
  { rewrite Hm'. unfold d1. rewrite <- Zdigits2_mul_pow2 by lia. apply Zdigits2_upper. nia. }
  assert (Hd2 : 1 <= d2) by (unfold d2; simpl; lia).
  assert (Hmb : 2 ^ (d2 - 1) <= Zpos mb) by (apply Zdigits2_lower; lia).
  assert (Hq : 0 <= q0 < 2 ^ Z.max (d1 + (ea - eb - e0) - (d2 - 1)) 0).
  { rewrite Hq0. split; [apply Z.div_pos; nia|].
    apply (Z.le_lt_trans _ (m' / 2 ^ (d2 - 1))).
    { apply Z.div_le_compat_l; [nia|split; [apply Z.pow_pos_nonneg; lia|exact Hmb]]. }
    apply div_pow2_lt; [nia|lia]. }
  assert (Hdq : Zdigits2 q0 <= Z.max (d1 + (ea - eb - e0) - (d2 - 1)) 0)
    by (apply Zdigits2_le; lia).
  pose proof (round_aux_ok false q0 e0 (new_location (Zpos mb) r0) ltac:(lia) ltac:(lia) ltac:(lia)) as Hr.
  apply rounded_ok_false. eapply rounded_ok_mono; [|exact Hr]. lia.
Qed.

Lemma js_floor_ok K x : 0 <= K <= 1022 -> dwf x -> d_nonneg x -> d_below K x ->
  dwf (js_floor x) /\ d_nonneg (js_floor x) /\ d_below (K + 1) (js_floor x).
Proof.
  intros HK Hx Nx Kx. destruct x as [s|s| |s m e]; simpl in *; try contradiction.
  - done.
  - change (Zpos (digits2_pos m)) with (Zdigits2 (Zpos m)) in *.
    destruct s; [contradiction|]. destruct (Z.leb_spec 0 e).
    + simpl. fold_digits. split; [done|]. split; [done|lia].
    + simpl cond_Zopp.
      assert (Hz : 0 <= Zpos m / 2 ^ (- e) < 2 ^ Z.max (Zdigits2 (Zpos m) - - e) 0).
      { split; [apply Z.div_pos; [lia|apply Z.pow_pos_nonneg; lia]|].
        apply div_pow2_lt; [|lia]. split; [lia|]. apply Zdigits2_upper. lia. }
      assert (Hd : Zdigits2 (Zpos m / 2 ^ (- e)) <= Z.max (Zdigits2 (Zpos m) - - e) 0)
        by (apply Zdigits2_le; lia).
      pose proof (normalize_ok (Zpos m / 2 ^ (- e)) 0 false ltac:(lia)) as Hn.
      replace (sign_of (Zpos m / 2 ^ (- e)) false) with false in Hn
        by (destruct (Zpos m / 2 ^ (- e)); simpl; lia).
      apply rounded_ok_false. eapply rounded_ok_mono; [|exact Hn]. lia.
Qed.

Lemma round_exact sx mx ex : Zdigits2 (Zpos mx) <= 53 -> -1074 <= ex ->
  Zdigits2 (Zpos mx) + ex <= 1024 ->
  exists mz ez, binary_round dprec demax sx mx ex = S754_finite sx mz ez /\ ez <= ex /\
    Zpos mz = Zpos mx * 2 ^ (ex - ez) /\ Zdigits2 (Zpos mz) <= 53 /\ -1074 <= ez <= 971 /\
    Zdigits2 (Zpos mz) + ez = Zdigits2 (Zpos mx) + ex.
Proof.
  intros H1 H2 H3. unfold binary_round.
  change (Zpos (digits2_pos mx)) with (Zdigits2 (Zpos mx)). rewrite fexp_eq.
  set (ez := Z.max (Zdigits2 (Zpos mx) + ex - 53) (-1074)).
  assert (Hez : ez <= ex) by (unfold ez; lia).
  pose proof (shl_align_fst mx ex ez Hez) as Hf.
  destruct (shl_align mx ex ez) as [mz ez'] eqn:E.
  assert (ez' = ez) as ->.
  { revert E. unfold shl_align. destruct (ez - ex) eqn:E'; intros [= <- <-]; lia. }
  simpl in Hf.
  pose proof (Zdigits2_mul_pow2 (Zpos mx) (ex - ez) ltac:(lia) ltac:(lia)) as Hd.
  rewrite <- Hf in Hd.
  assert (Hs : Z.max (Zdigits2 (Zpos mz) + ez - 53) (-1074) - ez = 0) by (unfold ez in *; lia).
  unfold binary_round_aux, shr_fexp.
  match goal with |- context [shr _ _ ?x] => replace x with 0 by (symmetry; exact Hs) end.
  cbn [shr shr_record_of_loc shr_m loc_of_shr_record round_nearest_even].
  match goal with |- context [shr _ _ ?x] => replace x with 0 by (symmetry; exact Hs) end.
  cbn [shr shr_record_of_loc shr_m].
  replace (Z.leb ez (Z.sub demax dprec)) with true by (symmetry; apply Z.leb_le; unfold ez, demax, dprec; lia).
  exists mz, ez. unfold ez in *. repeat split; lia.
Qed.

Lemma Qpow2_pos e : (0 < Qpower 2 e)%Q.
Proof. apply Qpower_0_lt. lra. Qed.

Lemma fval_shift m k e : 0 <= k ->
  (inject_Z (m * 2 ^ k) * Qpower 2 e == inject_Z m * Qpower 2 (e + k))%Q.
Proof.
  intros Hk. rewrite inject_Z_mult, Zpower_Qpower by lia.
  rewrite Qpower_plus by lra. change (inject_Z 2) with 2%Q. ring.
Qed.

Lemma dval_finite s m e : dval (S754_finite s m e) = (inject_Z (cond_Zopp s (Zpos m)) * Qpower 2 e)%Q.
Proof. reflexivity. Qed.

Lemma js_rem_ok x mt et : dwf x -> d_nonneg x -> dwf (S754_finite false mt et) ->
  let r := js_rem x (S754_finite false mt et) in
  dwf r /\ d_nonneg r /\ d_below (Zdigits2 (Zpos mt) + et) r /\
  (0 <= dval r)%Q /\ (dval r < dval (S754_finite false mt et))%Q.
Proof.
  intros Hx Nx Ht r. unfold r; clear r.
  assert (Hpos : (0 < dval (S754_finite false mt et))%Q).
  { rewrite dval_finite. apply Qmult_lt_0_compat; [|apply Qpow2_pos].
    unfold Qlt; simpl; lia. }
  simpl in Ht. fold_digits.
  destruct x as [s|s| |s mn en]; simpl in Hx, Nx; try contradiction.
  - simpl. repeat split; first [done | lra].
  - destruct s; [contradiction|]. fold_digits. unfold js_rem.
    set (e := Z.min en et).
    change (cond_Zopp false (Zpos mn * 2 ^ (en - e))) with (Zpos mn * 2 ^ (en - e)).
    assert (Hpa : 0 < 2 ^ (en - e)) by (apply Z.pow_pos_nonneg; lia).
    assert (Hpb : 0 < 2 ^ (et - e)) by (apply Z.pow_pos_nonneg; lia).
    set (a := Zpos mn * 2 ^ (en - e)). set (b := Zpos mt * 2 ^ (et - e)).
    assert (Ha : 0 < a) by (unfold a; nia). assert (Hb : 0 < b) by (unfold b; nia).
    pose proof (Z.rem_bound_pos a b ltac:(lia) Hb) as Hr.
    pose proof (Z.rem_le a b ltac:(lia) Hb) as Hra.
    assert (Hdb : Zdigits2 b = Zdigits2 (Zpos mt) + (et - e))
      by (unfold b; apply Zdigits2_mul_pow2; lia).
    destruct (Z.rem a b) as [|r|r] eqn:Er; [| |lia].
    + simpl. repeat split; first [done | lra].
    + assert (Hdr : Zdigits2 (Zpos r) <= 53).
      { destruct (Z.le_gt_cases en et) as [Hle|Hgt].
        - assert (Ea : a = Zpos mn) by (unfold a, e; rewrite Z.min_l, Z.sub_diag by lia; lia).
          pose proof (Zdigits2_mono (Zpos r) (Zpos mn) ltac:(lia)). lia.
        - assert (Eb : b = Zpos mt) by (unfold b, e; rewrite Z.min_r, Z.sub_diag by lia; lia).
          pose proof (Zdigits2_mono (Zpos r) (Zpos mt) ltac:(lia)). lia. }
      pose proof (Zdigits2_mono (Zpos r) b ltac:(lia)) as Hrb.
      change (binary_normalize dprec demax (Zpos r) e false) with (binary_round dprec demax false r e).
      destruct (round_exact false r e Hdr ltac:(lia) ltac:(lia)) as (mz & ez & -> & Hle & Hmz & D1 & D2 & D3).
      split; [simpl; fold_digits; lia|]. split; [done|]. split; [simpl; fold_digits; lia|].
      rewrite !dval_finite. change (cond_Zopp false (Zpos mz)) with (Zpos mz).
      change (cond_Zopp false (Zpos mt)) with (Zpos mt).
      rewrite Hmz, fval_shift by lia. replace (ez + (e - ez)) with e by lia.
      assert (Et : (inject_Z (Zpos mt) * Qpower 2 et == inject_Z b * Qpower 2 e)%Q).
      { unfold b. rewrite fval_shift by lia. replace (e + (et - e)) with et by lia. reflexivity. }
      rewrite Et.
      pose proof (Qpow2_pos e). split.
      * apply Qmult_le_0_compat; [unfold Qle; simpl; lia|lra].
      * apply Qmult_lt_r; [done|]. rewrite <- Zlt_Qlt. lia.
Qed.

Lemma d_below_mono k k' x : k <= k' -> d_below k x -> d_below k' x.
Proof. destruct x; simpl; lia || done. Qed.

Lemma d_ge_pos x mi ei : dwf x -> d_ge x (S754_finite false mi ei) = true ->
  exists mx ex, x = S754_finite false mx ex.
Proof.
  destruct x as [s|s| |s m e]; simpl; try contradiction; intros _ H.
  - unfold d_ge, SFleb, SFcompare in H. discriminate H.
  - destruct s; [|eauto]. unfold d_ge, SFleb, SFcompare in H. discriminate H.
Qed.

Lemma loop_inv_step mi ei mt et now s :
  dwf (S754_finite false mi ei) -> 1 <= Zdigits2 (Zpos mi) + ei <= 900 ->
  dwf (S754_finite false mt et) -> Zdigits2 (Zpos mt) + et <= 900 ->
  dwf now -> d_below 900 now ->
  loop_inv (S754_finite false mi ei) (S754_finite false mt et) s ->
  loop_inv (S754_finite false mi ei) (S754_finite false mt et) (fst (loop now s)) /\
  Forall (fun c => d_below 900 c /\ (0 <= dval c < dval (S754_finite false mt et))%Q)
         (snd (loop now s)).
Proof.
  intros Hi Ki Ht Kt Hn Kn Hs. pose proof Hs as (Ei & Et & Hl & Kl & Hc & Nc & Kc).
  unfold loop. destruct (isPlaying s); [|split; [exact Hs|constructor]]. cbn [negb].
  rewrite Ei, Et.
  destruct (d_sub_ok 902 now (lastTime s) ltac:(lia) Hn Hl (d_below_mono 900 902 now ltac:(lia) Kn) Kl)
    as [He Ke].
  destruct (d_ge (d_sub now (lastTime s)) (S754_finite false mi ei)) eqn:Ege;
    [|split; [exact Hs|constructor]].
  destruct (d_ge_pos _ _ _ He Ege) as (mx & ex & Hx). rewrite Hx in He, Ke |- *.
  simpl in Ke. fold_digits.
  destruct (d_div_ok 904 mx ex mi ei ltac:(lia) He Hi ltac:(lia) ltac:(lia)) as (Hq & Nq & Kq).
  destruct (js_floor_ok 905 _ ltac:(lia) Hq Nq Kq) as (Hf & Nf & Kf).
  destruct (d_add_ok 906 (currentFrame s) _ ltac:(lia) Hc Hf Nc Nf
              (d_below_mono 900 906 _ ltac:(lia) Kc) Kf) as (Ha & Na & Ka).
  destruct (js_rem_ok _ mt et Ha Na Ht) as (Hc' & Nc' & Kc' & L0 & L1).
  destruct (js_rem_ok (S754_finite false mx ex) mi ei He I Hi) as (Hr & Nr & Kr & _ & _).
  destruct (d_sub_ok 900 now _ ltac:(lia) Hn Hr Kn (d_below_mono (Zdigits2 (Zpos mi) + ei) 900 _ ltac:(lia) Kr))
    as [Hl' Kl'].
  split.
  - cbn [fst]. unfold loop_inv. cbn [frameInterval totalFrames lastTime currentFrame].
    split; [done|]. split; [done|]. split; [done|]. split; [done|]. split; [done|].
    split; [done|]. eapply d_below_mono; [|exact Kc']. lia.
  - cbn [snd]. constructor; [|constructor]. split; [|split; assumption].
    eapply d_below_mono; [|exact Kc']. lia.
Qed.

Lemma ticks_inv mi ei mt et nows : forall s,
  dwf (S754_finite false mi ei) -> 1 <= Zdigits2 (Zpos mi) + ei <= 900 ->
  dwf (S754_finite false mt et) -> Zdigits2 (Zpos mt) + et <= 900 ->
  Forall (fun now => dwf now /\ d_below 900 now) nows ->
  loop_inv (S754_finite false mi ei) (S754_finite false mt et) s ->
  Forall (fun c => d_below 900 c /\ (0 <= dval c < dval (S754_finite false mt et))%Q)
         (snd (ticks nows s)).
Proof.
  induction nows as [|now nows IH]; intros s Hi Ki Ht Kt Hn Hs; simpl; [constructor|].
  inversion Hn as [|? ? [Hn1 Kn1] Hn2]; subst.
  destruct (loop_inv_step mi ei mt et now s Hi Ki Ht Kt Hn1 Kn1 Hs) as [Hs1 Ho1].
  destruct (loop now s) as [s1 out1]. cbn [fst snd] in Hs1, Ho1.
  specialize (IH s1 Hi Ki Ht Kt Hn2 Hs1).
  destruct (ticks nows s1) as [s2 out2]. simpl in *. apply Forall_app. done.
Qed.

Lemma d_small_dwf x : d_small x -> dwf x.
Proof.
  destruct x as [s|s| |s m e]; simpl; intros [Hv Hb]; try done.
  unfold bounded, canonical_mantissa in Hv. apply andb_prop in Hv as [Hc He].
  apply Z.eqb_eq in Hc. apply Z.leb_le in He. rewrite fexp_eq in Hc. fold_digits.
  unfold demax, dprec in He. lia.
Qed.

Lemma dval_neg m e : (dval (S754_finite true m e) < 0)%Q.
Proof.
  rewrite dval_finite. pose proof (Qpow2_pos e) as Hp.
  assert (Hn : (inject_Z (cond_Zopp true (Zpos m)) < 0)%Q) by (unfold Qlt; simpl; lia).
  apply (Qmult_lt_r _ _ (Qpower 2 e) Hp) in Hn. rewrite Qmult_0_l in Hn. exact Hn.
Qed.

Lemma d_nonneg_of_dval x : dwf x -> (0 <= dval x)%Q -> d_nonneg x.
Proof.
  intros Hw H. destruct x as [s|s| |s m e]; try exact I; try (simpl in Hw; contradiction).
  destruct s; [|exact I]. pose proof (dval_neg m e). lra.
Qed.

Lemma d_pos_of_dval x : dwf x -> (0 < dval x)%Q -> exists m e, x = S754_finite false m e.
Proof.
  intros Hw H. destruct x as [s|s| |s m e]; try (simpl in Hw; contradiction).
  - simpl in H. lra.
  - destruct s; [|eauto]. pose proof (dval_neg m e). lra.
Qed.

Lemma d_mag_of_dval m e : (1 <= dval (S754_finite false m e))%Q -> 1 <= Zdigits2 (Zpos m) + e.
Proof.
  intros H. destruct (Z.le_gt_cases (Zdigits2 (Zpos m) + e) 0) as [Hle|]; [|lia].
  exfalso. rewrite dval_finite in H. change (cond_Zopp false (Zpos m)) with (Zpos m) in H.
  pose proof (Zdigits2_nonneg (Zpos m)).
  assert (Hm : (inject_Z (Zpos m) < Qpower 2 (Zdigits2 (Zpos m)))%Q).
  { rewrite <- (Zpower_Qpower 2) by lia. rewrite <- Zlt_Qlt. apply Zdigits2_upper. lia. }
  apply (Qmult_lt_r _ _ (Qpower 2 e) (Qpow2_pos e)) in Hm.
  rewrite <- Qpower_plus in Hm by lra.
  assert (Hp : (Qpower 2 (Zdigits2 (Zpos m) + e) <= Qpower 2 0)%Q)
    by (apply Qpower_le_compat_l; [lia|lra]).
  change (Qpower 2 0) with 1%Q in Hp. lra.
Qed.

(** X13 *)
(** Under playback started at frame [k] and time [now0], with every time,
    the start frame, the frame count and the interval finite doubles below
    [2^900], the start frame nonnegative, the frame count positive and the
    interval at least 1 ms, every frame number passed to [onFrame] is a
    finite double in [[0, totalFrames)]. *)
Theorem playback_frames_in_range (nows : list double) (k now0 : double) (s : Loop) :
  d_small now0 -> Forall d_small nows ->
  d_small k -> (0 <= dval k)%Q ->
  d_small (totalFrames s) -> (0 < dval (totalFrames s))%Q ->
  d_small (frameInterval s) -> (1 <= dval (frameInterval s))%Q ->
  Forall (fun c => d_below 900 c /\ (0 <= dval c < dval (totalFrames s))%Q)
         (snd (ticks nows (start k now0 s))).
Proof.
  intros H0 Hn Hk Vk Ht Vt Hi Vi.
  destruct (d_pos_of_dval _ (d_small_dwf _ Ht) Vt) as (mt & et & Et).
  assert (Vi' : (0 < dval (frameInterval s))%Q) by lra.
  destruct (d_pos_of_dval _ (d_small_dwf _ Hi) Vi') as (mi & ei & Ei).
  rewrite Et. rewrite Ei in Vi.
  pose proof (d_mag_of_dval _ _ Vi) as Mi.
  assert (Ki := proj2 Hi). assert (Kt := proj2 Ht). rewrite Ei in Ki. rewrite Et in Kt.
  simpl in Ki, Kt. fold_digits.
  apply ticks_inv with mi ei; try lia.
  - rewrite <- Ei. apply d_small_dwf. done.
  - rewrite <- Et. apply d_small_dwf. done.
  - eapply Forall_impl; [exact Hn|]. intros x Hx. split; [apply d_small_dwf; done|apply Hx].
  - unfold loop_inv, start. cbn [frameInterval totalFrames lastTime currentFrame].
    split; [done|]. split; [done|].
    split; [apply d_small_dwf; done|]. split; [eapply d_below_mono; [|apply H0]; lia|].
    split; [apply d_small_dwf; done|]. split; [|apply Hk].
    apply d_nonneg_of_dval; [apply d_small_dwf|]; done.
Qed.

Lemma playback_frames_in_range_witness :
  let s := setTotalFrames (d_of_Z 10) (setFPS (d_of_Z 30) newLoop) in
  let nows := [d_of_Z 1010; d_of_Z 1100; d_of_Z 1500] in
  d_small (d_of_Z 1000) /\ Forall d_small nows /\
  d_small (d_of_Z 0) /\ (0 <= dval (d_of_Z 0))%Q /\
  d_small (totalFrames s) /\ (0 < dval (totalFrames s))%Q /\
  d_small (frameInterval s) /\ (1 <= dval (frameInterval s))%Q /\
  Forall (fun c => d_below 900 c /\ (0 <= dval c < dval (totalFrames s))%Q)
         (snd (ticks nows (start (d_of_Z 0) (d_of_Z 1000) s))).
Proof.
  intros s nows.
  assert (H0 : d_small (d_of_Z 1000)) by (split; vm_compute; [reflexivity|discriminate]).
  assert (Hn : Forall d_small nows)
    by (repeat constructor; vm_compute; first [reflexivity|discriminate]).
  assert (Hk : d_small (d_of_Z 0)) by (split; vm_compute; [reflexivity|exact I]).
  assert (Vk : (0 <= dval (d_of_Z 0))%Q) by (vm_compute; discriminate).
  assert (Ht : d_small (totalFrames s)) by (split; vm_compute; [reflexivity|discriminate]).
  assert (Vt : (0 < dval (totalFrames s))%Q) by (vm_compute; reflexivity).
  assert (Hi : d_small (frameInterval s)) by (split; vm_compute; [reflexivity|discriminate]).
  assert (Vi : (1 <= dval (frameInterval s))%Q) by (vm_compute; discriminate).
  repeat (split; [assumption|]).
  exact (playback_frames_in_range nows (d_of_Z 0) (d_of_Z 1000) s H0 Hn Hk Vk Ht Vt Hi Vi).
Defined.


(** X14 *)
(** After [stop], ticks never call [onFrame] and leave the loop state unchanged. *)
Theorem stop_silences_ticks (nows : list double) (s : Loop) :
  ticks nows (stop s) = (stop s, []).
Proof.
  induction nows as [|now nows IH]; simpl; [done|]. rewrite IH. reflexivity.
Qed.

(** *** Brush engine *)

Lemma keeps_refl c : keeps c c.
Proof. repeat split. Qed.

Lemma keeps_trans a b c : keeps a b -> keeps b c -> keeps a c.
Proof. unfold keeps. intros (?&?&?&?&?&?) (?&?&?&?&?&?). repeat split; congruence. Qed.

Lemma keeps_lineWidth v c : keeps c (set_lineWidth v c).
Proof. unfold set_lineWidth. destruct v as [q| | |]; try apply keeps_refl. destruct Qlt_le_dec; [repeat split|apply keeps_refl]. Qed.

Lemma keeps_moveTo x y c : keeps c (moveTo x y c).
Proof. repeat split. Qed.

Lemma keeps_lineTo x y c : keeps c (lineTo x y c).
Proof. unfold lineTo. destruct (rev (path c)); repeat split. Qed.

Lemma keeps_beginPath c : keeps c (beginPath c).
Proof. repeat split. Qed.

Lemma keeps_spline_iters p0 p1 p2 p3 t0 t1 t2 t3 st i fuel c :
  keeps c (spline_iters p0 p1 p2 p3 t0 t1 t2 t3 st i fuel c).
Proof.
  revert i c. induction fuel as [|fuel IH]; intros i c; simpl; [apply keeps_refl|].
  destruct (spline_point p0 p1 p2 p3 t0 t1 t2 t3 i) as [[cx cy] pr].
  eapply keeps_trans; [|apply IH]. eapply keeps_trans; [apply keeps_lineWidth|].
  destruct (i =? 0)%nat; [apply keeps_moveTo|apply keeps_lineTo].
Qed.

Lemma drawSimpleLine_shape pts st c :
  saved (drawSimpleLine pts st c) = saved c /\
  exists new, strokes (drawSimpleLine pts st c) = strokes c ++ new /\ (length new <= 1)%nat /\
    Forall (fun op => so_cap op = "round" /\ so_join op = "round" /\
                      so_style op = bcolor st /\ so_op op = ds_op (state c)) new.
Proof.
  unfold drawSimpleLine. destruct (length pts <? 2)%nat.
  { split; [done|]. exists []. rewrite app_nil_r. split; [done|]. split; [simpl; lia|constructor]. }
  destruct (pts !! (length pts - 2)%nat) as [p1|], (pts !! (length pts - 1)%nat) as [p2|];
    try (split; [done|]; exists []; rewrite app_nil_r; split; [done|]; split; [simpl; lia|constructor]).
  set (w := num_mul (size st) (pressure p2)).
  set (c1 := set_strokeStyle (bcolor st) (set_lineJoin "round" (set_lineCap "round" (beginPath c)))).
  pose proof (keeps_lineWidth w c1) as Hk.
  pose proof (keeps_moveTo (px p1) (py p1) (set_lineWidth w c1)) as Hk2.
  pose proof (keeps_lineTo (px p2) (py p2) (moveTo (px p1) (py p1) (set_lineWidth w c1))) as Hk3.
  pose proof (keeps_trans _ _ _ Hk (keeps_trans _ _ _ Hk2 Hk3)) as (Hs & Hst & Hc & Hj & Hy & Ho).
  unfold stroke at 1 2. cbn [saved strokes state].
  split; [rewrite Hs; reflexivity|].
  eexists. split; [rewrite Hst; reflexivity|]. split; [simpl; lia|].
  constructor; [|constructor]. cbn [so_cap so_join so_style so_op].
  rewrite Hc, Hj, Hy, Ho. repeat split.
Qed.

Lemma drawSpline_shape pts st c :
  saved (drawSpline pts st c) = saved c /\
  exists new, strokes (drawSpline pts st c) = strokes c ++ new /\ (length new <= 1)%nat /\
    Forall (fun op => so_cap op = "round" /\ so_join op = "round" /\
                      so_style op = bcolor st /\ so_op op = ds_op (state c)) new.
Proof.
  unfold drawSpline.
  destruct (pts !! (length pts - 4)%nat) as [p0|], (pts !! (length pts - 3)%nat) as [p1|],
    (pts !! (length pts - 2)%nat) as [p2|], (pts !! (length pts - 1)%nat) as [p3|];
    try (split; [done|]; exists []; rewrite app_nil_r; split; [done|]; split; [simpl; lia|constructor]).
  match goal with |- context [spline_iters ?a ?b ?d ?e ?f ?g ?h ?i ?j ?k ?l ?m] =>
    pose proof (keeps_spline_iters a b d e f g h i j k l m) as (Hs & Hst & Hc & Hj & Hy & Ho) end.
  unfold stroke at 1 2. cbn [saved strokes state].
  split; [rewrite Hs; reflexivity|].
  eexists. split; [rewrite Hst; reflexivity|]. split; [simpl; lia|].
  constructor; [|constructor]. cbn [so_cap so_join so_style so_op].
  rewrite Hc, Hj, Hy, Ho. repeat split.
Qed.

Lemma draw_shape pts st c :
  let d := if (length pts <? 4)%nat then drawSimpleLine pts st c else drawSpline pts st c in
  saved d = saved c /\
  exists new, strokes d = strokes c ++ new /\ (length new <= 1)%nat /\
    Forall (fun op => so_cap op = "round" /\ so_join op = "round" /\
                      so_style op = bcolor st /\ so_op op = ds_op (state c)) new.
Proof.
  destruct (length pts <? 4)%nat; [apply drawSimpleLine_shape|apply drawSpline_shape].
Qed.

(** X15 *)
(** [addPoint] leaves the canvas drawing state and the save stack as it found them: the eraser's composite mode and the line settings do not leak past the call. *)
Theorem addPoint_restores_state (p : Point) (st : BrushSettings) (e : Engine) :
  state (ctx (addPoint p st e)) = state (ctx e) /\
  saved (ctx (addPoint p st e)) = saved (ctx e).
Proof.
  unfold addPoint.
  assert (H : forall c, saved c = state (ctx e) :: saved (ctx e) ->
              state (ctx_restore c) = state (ctx e) /\ saved (ctx_restore c) = saved (ctx e)).
  { intros c Hc. unfold ctx_restore. rewrite Hc. done. }
  destruct (tool st) eqn:Ht; try done; cbn [ctx]; apply H.
  - by rewrite (proj1 (draw_shape (points e ++ [p]) st (ctx_save (ctx e)))).
  - by rewrite (proj1 (draw_shape (points e ++ [p]) st
                        (set_composite "destination-out" (ctx_save (ctx e))))).
Qed.

(** X16 *)
(** [addPoint] strokes the canvas at most once, with round caps and joins, the brush color, and the [destination-out] composite for the eraser or the prior composite otherwise. *)
Theorem addPoint_stroke_style (p : Point) (st : BrushSettings) (e : Engine) :
  exists new,
    strokes (ctx (addPoint p st e)) = strokes (ctx e) ++ new /\ (length new <= 1)%nat /\
    Forall (fun op => so_cap op = "round" /\ so_join op = "round" /\
                      so_style op = bcolor st /\
                      so_op op = match tool st with
                                 | Eraser => "destination-out"
                                 | _ => ds_op (state (ctx e))
                                 end) new.
Proof.
  assert (Hr : forall c, strokes (ctx_restore c) = strokes c)
    by (intros c; unfold ctx_restore; destruct (saved c); done).
  unfold addPoint. destruct (tool st) eqn:Ht.
  3,4: exists []; rewrite app_nil_r; (split; [done|]); (split; [simpl; lia|]); constructor.
  - cbn [ctx]. rewrite Hr.
    destruct (draw_shape (points e ++ [p]) st (ctx_save (ctx e))) as [_ (new & H1 & H2 & H3)].
    exists new. split; [exact H1|]. split; [exact H2|]. exact H3.
  - cbn [ctx]. rewrite Hr.
    destruct (draw_shape (points e ++ [p]) st
                (set_composite "destination-out" (ctx_save (ctx e)))) as [_ (new & H1 & H2 & H3)].
    exists new. split; [exact H1|]. split; [exact H2|]. exact H3.
Qed.



(** X17 *)
(** For a brush or eraser, [addPoint] on an engine with no points draws nothing; with one or two points it strokes one straight segment from the last point to the new one, of width [size * pressure] when that is finite and positive and of the previous width otherwise. *)
Theorem addPoint_simple_segment (p : Point) (st : BrushSettings) (e : Engine) :
  tool st = Brush \/ tool st = Eraser ->
  (points e = [] -> strokes (ctx (addPoint p st e)) = strokes (ctx e)) /\
  (forall p1, (length (points e) <= 2)%nat -> last (points e) = Some p1 ->
   exists op, strokes (ctx (addPoint p st e)) = strokes (ctx e) ++ [op] /\
     so_path op = [[(px p1, py p1); (px p, py p)]] /\
     (forall q, num_mul (size st) (pressure p) = Fin q -> (0 < q)%Q -> so_width op = Fin q) /\
     ((forall q, num_mul (size st) (pressure p) = Fin q -> (q <= 0)%Q) ->
      so_width op = ds_lineWidth (state (ctx e)))).
Proof.
  intros Ht. destruct e as [pts c]. cbn [points ctx].
  assert (Hr : forall c, strokes (ctx_restore c) = strokes c)
    by (intros c'; unfold ctx_restore; destruct (saved c'); done).
  split.
  - intros ->. unfold addPoint. destruct Ht as [Ht|Ht]; rewrite Ht; cbn [ctx]; rewrite Hr; reflexivity.
  - intros p1 Hl Hlast.
    destruct pts as [|a [|b [|x l]]]; simpl in Hl, Hlast; try discriminate; try lia;
      injection Hlast as <-;
      unfold addPoint; destruct Ht as [Ht|Ht]; rewrite Ht; cbn [ctx]; rewrite Hr;
      unfold drawSimpleLine; simpl; unfold set_lineWidth;
      (destruct (num_mul (size st) (pressure p)) as [q| | |] eqn:Ew;
       [destruct (Qlt_le_dec 0 q) as [Hq|Hq]| | |]); simpl;
      (eexists; split; [reflexivity|]); (split; [reflexivity|]); cbn [so_width];
      (split; [intros q' Eq' Hq'; try discriminate; injection Eq' as <-;
               first [reflexivity | exfalso; apply (Qlt_not_le _ _ Hq' Hq)]|]);
      intros Hn; first [ reflexivity
                       | exfalso; apply (Qlt_not_le _ _ Hq (Hn q eq_refl)) ].
Qed.

Lemma addPoint_simple_segment_witness :
  let e := mkEngine [ex_pt 0 0 (1 # 2)] ex_ctx0 in
  let p := ex_pt 10 0 1 in
  (tool ex_brush = Brush \/ tool ex_brush = Eraser) /\
  ((points e = [] -> strokes (ctx (addPoint p ex_brush e)) = strokes (ctx e)) /\
   (forall p1, (length (points e) <= 2)%nat -> last (points e) = Some p1 ->
    exists op, strokes (ctx (addPoint p ex_brush e)) = strokes (ctx e) ++ [op] /\
      so_path op = [[(px p1, py p1); (px p, py p)]] /\
      (forall q, num_mul (size ex_brush) (pressure p) = Fin q -> (0 < q)%Q -> so_width op = Fin q) /\
      ((forall q, num_mul (size ex_brush) (pressure p) = Fin q -> (q <= 0)%Q) ->
       so_width op = ds_lineWidth (state (ctx e))))).
Proof.
  split; [left; reflexivity|]. apply addPoint_simple_segment. left. reflexivity.
Defined.

(** *** Colors and fill *)

Lemma hex_digit_range c d : hex_digit c = Some d -> 0 <= d <= 15.
Proof.
  unfold hex_digit.
  destruct ((48 <=? _) && (_ <=? 57)) eqn:E1;
    [intros [= <-]; apply andb_true_iff in E1; rewrite !Z.leb_le in E1; lia|].
  destruct ((97 <=? _) && (_ <=? 102)) eqn:E2;
    [intros [= <-]; apply andb_true_iff in E2; rewrite !Z.leb_le in E2; lia|].
  destruct ((65 <=? _) && (_ <=? 70)) eqn:E3;
    [intros [= <-]; apply andb_true_iff in E3; rewrite !Z.leb_le in E3; lia|].
  discriminate.
Qed.

Lemma hex_byte_range c1 c2 v : hex_byte c1 c2 = Some v -> 0 <= v <= 255.
Proof.
  unfold hex_byte. destruct (hex_digit c1) as [a|] eqn:E1; [|discriminate].
  destruct (hex_digit c2) as [b|] eqn:E2; [|discriminate].
  intros [= <-]. apply hex_digit_range in E1, E2. lia.
Qed.

(** X18 *)
(** Every color [hexToRgb] accepts has its three channels in [0, 255]. *)
Theorem hexToRgb_channels (hex : string) (r g b : Z) :
  hexToRgb hex = Some (r, g, b) ->
  0 <= r <= 255 /\ 0 <= g <= 255 /\ 0 <= b <= 255.
Proof.
  unfold hexToRgb.
  destruct (String.list_ascii_of_string _) as [|c1 [|c2 [|c3 [|c4 [|c5 [|c6 [|c7 l]]]]]]];
    try discriminate.
  destruct (hex_byte c1 c2) as [r'|] eqn:E1; [|discriminate].
  destruct (hex_byte c3 c4) as [g'|] eqn:E2; [|discriminate].
  destruct (hex_byte c5 c6) as [b'|] eqn:E3; [|discriminate].
  intros [= <- <- <-]. apply hex_byte_range in E1, E2, E3. lia.
Qed.

Lemma hexToRgb_channels_witness :
  hexToRgb "#1aFf07" = Some (26, 255, 7) /\
  0 <= 26 <= 255 /\ 0 <= 255 <= 255 /\ 0 <= 7 <= 255.
Proof. split; [reflexivity|]. apply (hexToRgb_channels "#1aFf07"). reflexivity. Defined.

(** X19 *)
(** The leading ['#'] is optional: prefixing ['#'] to a string that does not start with one does not change what [hexToRgb] returns. *)
Theorem hexToRgb_hash_optional (s : string) :
  String.get 0 s <> String.get 0 "#" ->
  hexToRgb (String.append "#" s) = hexToRgb s.
Proof.
  intros H. unfold hexToRgb at 1. cbn match.
  destruct s as [|c s]; [reflexivity|].
  simpl in H. destruct c as [[] [] [] [] [] [] [] []]; try reflexivity.
  exfalso. apply H. reflexivity.
Qed.

Lemma hexToRgb_hash_optional_witness :
  String.get 0 "00ff80" <> String.get 0 "#" /\
  hexToRgb (String.append "#" "00ff80") = hexToRgb "00ff80".
Proof. split; [discriminate|]. apply hexToRgb_hash_optional. discriminate. Defined.

(** X20 *)
(** [floodFill] leaves the raster unchanged when the seed is outside the canvas, when the fill color does not parse, or when the seed pixel already has the opaque fill color. *)
Theorem floodFill_early_return (w h : Z) (data : list Z) (sx sy : Z) (fillColor : string) :
  ~ inb w h (sx, sy) \/ hexToRgb fillColor = None \/
  (exists r g b, hexToRgb fillColor = Some (r, g, b) /\ getPixel data w sx sy = opaque r g b) ->
  floodFill w h data sx sy fillColor = Some data.
Proof.
  intros [Hs | [Hn | (r & g & b & Hh & Hp)]].
  - by apply floodFill_oob.
  - unfold floodFill, floodFillRun. by rewrite Hn.
  - by apply (floodFill_match _ _ _ _ _ _ r g b).
Qed.

Lemma floodFill_early_return_witness :
  (~ inb 3 1 (5, 0) \/ hexToRgb ex_fill = None \/
   (exists r g b, hexToRgb ex_fill = Some (r, g, b) /\ getPixel ex_canvas 3 5 0 = opaque r g b)) /\
  floodFill 3 1 ex_canvas 5 0 ex_fill = Some ex_canvas.
Proof.
  assert (H : ~ inb 3 1 (5, 0)) by (unfold inb; simpl; lia).
  split; [left; exact H|]. apply floodFill_early_return. left. exact H.
Defined.

(** *** Start-up *)

Lemma insert_by_index_perm f l : Permutation (insert_by_index f l) (f :: l).
Proof.
  induction l as [|g l IH]; simpl; [done|].
  destruct (index f <=? index g); [done|].
  rewrite IH. apply perm_swap.
Qed.

Lemma sort_by_index_perm l : Permutation (sort_by_index l) l.
Proof.
  induction l as [|f l IH]; simpl; [done|].
  rewrite insert_by_index_perm, IH. done.
Qed.

Lemma insert_by_index_sorted f l :
  Sorted (fun a b => index a <= index b) l ->
  Sorted (fun a b => index a <= index b) (insert_by_index f l).
Proof.
  induction 1 as [|g l Hs IH Hhd]; simpl; [repeat constructor|].
  destruct (Z.leb_spec (index f) (index g)).
  - constructor; [constructor; done|]. constructor. done.
  - constructor; [done|].
    destruct l as [|h l]; simpl in *; [repeat constructor; lia|].
    inversion Hhd; subst.
    destruct (index f <=? index h); constructor; lia.
Qed.

Lemma sort_by_index_sorted l : Sorted (fun a b => index a <= index b) (sort_by_index l).
Proof. induction l as [|f l IH]; simpl; [constructor|]. by apply insert_by_index_sorted. Qed.

(** X21 *)
(** Start-up: when opening the store fails, [initApp] stops with that error and changes nothing. When it succeeds, the store is open, the layers and the selected index are kept and the effect that runs on the frame change empties both history stacks; with no stored frame the list becomes one new frame with index 0, whose record is saved; otherwise the list is the stored records sorted by index, and the frames store is unchanged. *)
Theorem initApp_loads (o : OpenOutcome) (a : App) (ids : string * string * string * string) :
  let a' := exec (initApp o ids) a in
  match o with
  | OpenError e => initApp o ids a = (Err e, a)
  | OpenSuccess =>
      db (store a') = true /\
      layers_os (store a') = layers_os (store a) /\
      currentFrameIndex a' = currentFrameIndex a /\
      undoStack a' = [] /\ redoStack a' = [] /\
      (frames_os (store a) = [] ->
         frames a' = [createNewFrame ids 0] /\
         frames_os (store a') = [(frame_id (createNewFrame ids 0), createNewFrame ids 0)]) /\
      (frames_os (store a) <> [] ->
         Permutation (frames a') (map snd (frames_os (store a))) /\
         Sorted (fun f g => index f <= index g) (frames a') /\
         frames_os (store a') = frames_os (store a))
  end.
Proof.
  destruct a as [fs ci al U R [dbb lo fo]]. cbv zeta.
  destruct o as [|e]; [|reflexivity].
  unfold exec, initApp, bindM, liftS, initStore, getAllFrames. cbn -[setFrames_effect].
  destruct fo as [|[k f] fo]; cbn -[setFrames_effect]; rewrite setFrames_effect_run; cbn.
  - repeat split; done.
  - repeat split; try done.
    + apply (sort_by_index_perm (f :: map snd fo)).
    + apply (sort_by_index_sorted (f :: map snd fo)).
Qed.
